(** * modified-image-diff: the image fitting geometry and the component state

    A shallow embedding of [app/src/ui/diff/image-diffs/modified-image-diff.tsx]:
    the pure function [getFittingSize], the component state with its
    event handlers, [getScaledDimensions] and the render functions.

    JavaScript numbers are embedded as extended rationals: a finite value is
    a rational, and the three non-finite values of the language are kept, so
    that a division by zero or an overflowing ratio behaves as it does in
    the source ([x / 0] is an infinity, [0 / 0] is [NaN], nothing raises).
    The sign of zero is abstracted: the two zeros compare equal in the
    source and no divisor of this file can be a negative zero.

    The arithmetic is given two readings.  [JsNumber] and [JsArith] hold the
    exact operators: the arithmetic of the source without rounding.
    [Rounding] holds the binary64 rounding and [Binary64] and [Rounded] the
    operators and the fitting calculator as the source runs them, each
    result rounded to the nearest double.  Statements about exact values
    (an output equal to a usable extent, a second fit that changes nothing)
    hold in the first reading only; for those the file gives the exact
    statement, the input on which the rounded code departs from it, and the
    bound within which it does. *)

From Stdlib Require Import QArith Qminmax Qround Qabs Qpower Lqa ZArith Lia.
From Stdlib Require Import List String Ascii Bool SpecFloat.
From Stdlib Require Import Setoid Morphisms.
Import ListNotations.

Local Open Scope Q_scope.

(** ** JavaScript numbers *)

Module JsNumber.

Inductive number : Type :=
| Fin (q : Q)
| PInf
| NInf
| NaN.

Definition zero : number := Fin 0.
Definition one : number := Fin 1.

(** [x == y] on rationals, lifted: the same JavaScript value. *)
Definition num_eq (x y : number) : Prop :=
  match x, y with
  | Fin a, Fin b => a == b
  | PInf, PInf => True
  | NInf, NInf => True
  | NaN, NaN => True
  | _, _ => False
  end.

Definition Qltb (a b : Q) : bool :=
  match a ?= b with Lt => true | _ => false end.

Definition Qis0 (a : Q) : bool :=
  match a ?= 0 with Eq => true | _ => false end.

(** The operator [x - y]. *)
Definition sub (x y : number) : number :=
  match x, y with
  | NaN, _ | _, NaN => NaN
  | Fin a, Fin b => Fin (a - b)
  | Fin _, PInf => NInf
  | Fin _, NInf => PInf
  | PInf, PInf => NaN
  | PInf, _ => PInf
  | NInf, NInf => NaN
  | NInf, _ => NInf
  end.

(** The operator [x < y]: false as soon as one side is [NaN]. *)
Definition ltb (x y : number) : bool :=
  match x, y with
  | NaN, _ | _, NaN => false
  | Fin a, Fin b => Qltb a b
  | _, NInf => false
  | PInf, _ => false
  | NInf, _ => true
  | Fin _, PInf => true
  end.

(** The operator [x / y].  A finite non-zero value over zero is an infinity
    of the sign of the dividend, zero over zero is [NaN], a finite value
    over an infinity is zero. *)
Definition div (x y : number) : number :=
  match x, y with
  | NaN, _ | _, NaN => NaN
  | Fin a, Fin b =>
      if Qis0 b then
        match a ?= 0 with
        | Eq => NaN
        | Gt => PInf
        | Lt => NInf
        end
      else Fin (a / b)
  | Fin _, _ => Fin 0
  | PInf, Fin b => if Qltb b 0 then NInf else PInf
  | NInf, Fin b => if Qltb b 0 then PInf else NInf
  | _, _ => NaN
  end.

(** [Math.max(x, y)]: [NaN] as soon as one argument is. *)
Definition max (x y : number) : number :=
  match x, y with
  | NaN, _ | _, NaN => NaN
  | PInf, _ | _, PInf => PInf
  | NInf, z | z, NInf => z
  | Fin a, Fin b => if Qltb a b then Fin b else Fin a
  end.

(** Truthiness of a number: [0] and [NaN] are falsy. *)
Definition truthy (x : number) : bool :=
  match x with
  | Fin a => negb (Qis0 a)
  | NaN => false
  | _ => true
  end.

(** [x || y] on numbers. *)
Definition or (x y : number) : number := if truthy x then x else y.

Definition is_finite (x : number) : bool :=
  match x with Fin _ => true | _ => false end.

(** A finite number that is not negative. *)
Definition is_nonneg (x : number) : bool :=
  match x with Fin a => negb (Qltb a 0) | _ => false end.

Definition is_zero (x : number) : bool :=
  match x with Fin a => Qis0 a | _ => false end.


End JsNumber.

Import JsNumber.

Declare Scope js_scope.
Delimit Scope js_scope with js.
Infix "===" := num_eq (at level 70, no associativity) : js_scope.
Local Open Scope js_scope.

(** ** Binary64 rounding

    The arithmetic of the source is IEEE 754 binary64: every operation
    returns the exact result rounded to the nearest representable number,
    ties to even, with gradual underflow and overflow to an infinity.
    [round64] is that rounding on the rationals, and the operators of
    [Binary64] are the exact operators of [JsNumber] followed by it. *)

Module Rounding.

Definition pow2 (e : Z) : Q := Qpower 2 e.

(** The integer part of the base-2 logarithm of a positive rational. *)
Definition Qlog2 (q : Q) : Z :=
  let l := (Z.log2 (Qnum q) - Z.log2 (Zpos (Qden q)))%Z in
  if Qltb q (pow2 l) then (l - 1)%Z else l.

(** The exponent of the unit in the last place: 53 significant bits, and
    never below the subnormal spacing. *)
Definition ulp_exponent (q : Q) : Z := Z.max (Qlog2 (Qabs q) - 52) (-1074).

(** The nearest integer, ties to even. *)
Definition round_even (t : Q) : Z :=
  let f := Qfloor t in
  match Qcompare (t - inject_Z f) (1 # 2) with
  | Lt => f
  | Gt => (f + 1)%Z
  | Eq => if Z.even f then f else (f + 1)%Z
  end.

Definition round64 (q : Q) : number :=
  if Qis0 q then Fin 0
  else
    let e := ulp_exponent q in
    let r := inject_Z (round_even (q / pow2 e)) * pow2 e in
    if Qltb r (pow2 1024) then
      if Qltb (- pow2 1024) r then Fin r else NInf
    else PInf.

Definition round (x : number) : number :=
  match x with
  | Fin q => round64 q
  | _ => x
  end.

(** The value [round64] gives to a positive number of the normal range. *)
Definition rounded (q : Q) : Q :=
  inject_Z (round_even (q / pow2 (Qlog2 q - 52))) * pow2 (Qlog2 q - 52).

Definition normal (q : Q) : Prop := pow2 (-1022) <= q /\ q <= pow2 1022.

(** The unit roundoff. *)
Definition u64 : Q := pow2 (-53).

(** Sizes far from underflow and overflow: the quotients and the outputs of
    a fit of such sizes stay in the normal range. *)
Definition moderate (q : Q) : Prop := pow2 (-250) <= q /\ q <= pow2 250.

End Rounding.

Import Rounding.

(** The operators [x - y] and [x / y] of the source. *)
Module Binary64.

Definition sub (x y : number) : number := round (JsNumber.sub x y).
Definition div (x y : number) : number := round (JsNumber.div x y).

End Binary64.


(** ** Agreement with the library's binary64

    [SpecFloat] of the standard library defines the IEEE operations on
    significand and exponent.  [of_spec] reads its floats as numbers, so
    that [Binary64.div] and [Binary64.sub] can be compared with its
    division and subtraction on samples. *)

Definition of_spec (x : spec_float) : number :=
  match x with
  | S754_zero _ => Fin 0
  | S754_infinity false => PInf
  | S754_infinity true => NInf
  | S754_nan => NaN
  | S754_finite s m e =>
      Fin ((if s then -1 else 1) * inject_Z (Zpos m) * pow2 e)
  end.

Definition spec_of_pos (n : positive) : spec_float := S754_finite false n 0.

Definition num_eqb (x y : number) : bool :=
  match x, y with
  | Fin a, Fin b => Qeq_bool a b
  | PInf, PInf | NInf, NInf | NaN, NaN => true
  | _, _ => false
  end.

Definition samples : list positive :=
  [1; 3; 7; 10; 20; 60; 80; 201; 220; 221; 224; 300; 500; 600; 603; 620;
   1000; 4096; 65535; 999983]%positive.

(** [a / b], then [a / (a / b)], the computation of a fitted dimension, and
    [a - b], on both sides. *)
Definition agree_on (a b : positive) : bool :=
  let q := SFdiv 53 1024 (spec_of_pos a) (spec_of_pos b) in
  let q' := Binary64.div (Fin (inject_Z (Zpos a))) (Fin (inject_Z (Zpos b))) in
  num_eqb (of_spec q) q'
  && num_eqb (of_spec (SFdiv 53 1024 (spec_of_pos a) q))
             (Binary64.div (Fin (inject_Z (Zpos a))) q')
  && num_eqb (of_spec (SFsub 53 1024 (spec_of_pos a) (spec_of_pos b)))
             (Binary64.sub (Fin (inject_Z (Zpos a))) (Fin (inject_Z (Zpos b)))).


(** ** [parseFloat]

    The built-in of the language, on byte strings: leading white space is
    skipped, then the longest prefix that is a decimal literal (a sign, the
    word Infinity or digits with an optional fraction and an optional
    exponent) is read; [NaN] when there is none.  The value of the literal
    is rounded to binary64.  White space is that of the language, in its
    UTF-8 encoding. *)

Module JsString.

Definition is_digit (c : ascii) : bool :=
  let n := nat_of_ascii c in (48 <=? n)%nat && (n <=? 57)%nat.

Definition digit_val (c : ascii) : Z := Z.of_nat (nat_of_ascii c - 48).

Definition is_space (c : ascii) : bool :=
  let n := nat_of_ascii c in
  ((9 <=? n)%nat && (n <=? 13)%nat) || (n =? 32)%nat.

(** The white space characters of the language beyond ASCII, by their
    UTF-8 bytes: U+00A0, and in three bytes U+1680, U+2000 to U+200A,
    U+2028, U+2029, U+202F, U+205F, U+3000 and U+FEFF. *)
Definition is_space2 (c1 c2 : ascii) : bool :=
  (nat_of_ascii c1 =? 194)%nat && (nat_of_ascii c2 =? 160)%nat.

Definition is_space3 (c1 c2 c3 : ascii) : bool :=
  let n1 := nat_of_ascii c1 in
  let n2 := nat_of_ascii c2 in
  let n3 := nat_of_ascii c3 in
  ((n1 =? 225) && (n2 =? 154) && (n3 =? 128))%nat
  || ((n1 =? 226) && (n2 =? 128)
      && (((128 <=? n3) && (n3 <=? 138)) || (n3 =? 168) || (n3 =? 169)
          || (n3 =? 175)))%nat
  || ((n1 =? 226) && (n2 =? 129) && (n3 =? 159))%nat
  || ((n1 =? 227) && (n2 =? 128) && (n3 =? 128))%nat
  || ((n1 =? 239) && (n2 =? 187) && (n3 =? 191))%nat.

(** The rest of the bytes after one white space character at their head. *)
Definition ws_rest (l : list ascii) : option (list ascii) :=
  match l with
  | c1 :: r1 =>
      if is_space c1 then Some r1
      else
        match r1 with
        | c2 :: r2 =>
            if is_space2 c1 c2 then Some r2
            else
              match r2 with
              | c3 :: r3 => if is_space3 c1 c2 c3 then Some r3 else None
              | [] => None
              end
        | [] => None
        end
  | [] => None
  end.

Fixpoint skip_ws_fuel (fuel : nat) (l : list ascii) : list ascii :=
  match fuel with
  | O => l
  | S fuel' =>
      match ws_rest l with
      | Some r => skip_ws_fuel fuel' r
      | None => l
      end
  end.

Definition skip_ws (l : list ascii) : list ascii :=
  skip_ws_fuel (List.length l) l.

Fixpoint take_digits (l : list ascii) : list ascii * list ascii :=
  match l with
  | c :: r =>
      if is_digit c then let (ds, rest) := take_digits r in (c :: ds, rest)
      else ([], l)
  | [] => ([], [])
  end.

Definition digits_val (ds : list ascii) : Z :=
  fold_left (fun acc c => (10 * acc + digit_val c)%Z) ds 0%Z.

Fixpoint starts_with (p l : list ascii) : bool :=
  match p, l with
  | [], _ => true
  | a :: p', b :: l' => Ascii.eqb a b && starts_with p' l'
  | _ :: _, [] => false
  end.

Definition parse_exponent (l : list ascii) : Z :=
  match l with
  | c :: r =>
      if Ascii.eqb c "e" || Ascii.eqb c "E" then
        let '(sgn, r') :=
          match r with
          | "+"%char :: r' => (1%Z, r')
          | "-"%char :: r' => ((-1)%Z, r')
          | _ => (1%Z, r)
          end in
        let (ds, _) := take_digits r' in
        match ds with
        | [] => 0%Z
        | _ => (sgn * digits_val ds)%Z
        end
      else 0%Z
  | [] => 0%Z
  end.

Definition parse_unsigned (l : list ascii) : number :=
  if starts_with (list_ascii_of_string "Infinity") l then PInf
  else
    let (ip, r1) := take_digits l in
    let (fp, r2) :=
      match r1 with
      | "."%char :: r => take_digits r
      | _ => ([], r1)
      end in
    match ip ++ fp with
    | [] => NaN
    | ds =>
        Fin (inject_Z (digits_val ds)
             * Qpower (10 # 1) (parse_exponent r2 - Z.of_nat (List.length fp)))
    end.

Definition neg (x : number) : number :=
  match x with
  | Fin a => Fin (- a)
  | PInf => NInf
  | NInf => PInf
  | NaN => NaN
  end.

(** The exact value of the literal. *)
Definition parse_literal (s : string) : number :=
  let l := skip_ws (list_ascii_of_string s) in
  match l with
  | "-"%char :: r => neg (parse_unsigned r)
  | "+"%char :: r => parse_unsigned r
  | _ => parse_unsigned l
  end.

Definition parseFloat (s : string) : number := round (parse_literal s).

End JsString.

Import JsString.

(** ** The fitting calculator *)

Record IImageSize : Type := mkSize { width : number; height : number }.

Definition size_eq (a b : IImageSize) : Prop :=
  width a === width b /\ height a === height b.

Definition SIZE_CONTROLS : number := Fin 60.
Definition PADDING : number := Fin 20.

(** The locals of [getFittingSize], one definition each. *)

Definition containerWidth (containerSize : IImageSize) : number :=
  sub (width containerSize) PADDING.

Definition containerHeight (containerSize : IImageSize) : number :=
  sub (sub (height containerSize) PADDING) SIZE_CONTROLS.

Definition heightRatio (imageSize containerSize : IImageSize) : number :=
  if ltb (containerHeight containerSize) (height imageSize)
  then div (height imageSize) (containerHeight containerSize)
  else one.

Definition widthRatio (imageSize containerSize : IImageSize) : number :=
  if ltb (containerWidth containerSize) (width imageSize)
  then div (width imageSize) (containerWidth containerSize)
  else one.

Definition ratio (imageSize containerSize : IImageSize) : number :=
  let ratio := max one (widthRatio imageSize containerSize) in
  if ltb (widthRatio imageSize containerSize) (heightRatio imageSize containerSize)
  then max one (heightRatio imageSize containerSize)
  else ratio.

Definition getFittingSize (imageSize containerSize : IImageSize) : IImageSize :=
  {| width := div (width imageSize) (ratio imageSize containerSize);
     height := div (height imageSize) (ratio imageSize containerSize) |}.

(** *** The same function, logging the divisor of every division it evaluates *)

Module Trace.

Definition Traced (A : Type) : Type := (A * list number)%type.

Definition ret {A : Type} (a : A) : Traced A := (a, []).

Definition bind {A B : Type} (m : Traced A) (k : A -> Traced B) : Traced B :=
  let (a, l) := m in
  let (b, l') := k a in
  (b, l ++ l').

Definition divT (x y : number) : Traced number := (div x y, [y]).

End Trace.

Import Trace.

Notation "x <- m ;; k" := (bind m (fun x => k))
  (at level 61, m at next level, right associativity).

Definition getFittingSizeT (imageSize containerSize : IImageSize)
  : Traced IImageSize :=
  let containerWidth := containerWidth containerSize in
  let containerHeight := containerHeight containerSize in
  heightRatio <-
    (if ltb containerHeight (height imageSize)
     then divT (height imageSize) containerHeight
     else ret one) ;;
  widthRatio <-
    (if ltb containerWidth (width imageSize)
     then divT (width imageSize) containerWidth
     else ret one) ;;
  let ratio :=
    if ltb widthRatio heightRatio then max one heightRatio
    else max one widthRatio in
  w <- divT (width imageSize) ratio ;;
  h <- divT (height imageSize) ratio ;;
  ret {| width := w; height := h |}.

(** The divisors of the divisions one call performs, in evaluation order. *)
Definition divisors (imageSize containerSize : IImageSize) : list number :=
  snd (getFittingSizeT imageSize containerSize).

Definition divides_by_zero (imageSize containerSize : IImageSize) : bool :=
  existsb is_zero (divisors imageSize containerSize).

(** ** The component *)

Record IModifiedImageDiffState : Type := mkState {
  value : number;
  previousImageSize : option IImageSize;
  currentImageSize : option IImageSize
}.

(** The mounted container element, seen through its bounding rectangle. *)
Record DOMRect : Type := mkRect { rect_width : number; rect_height : number }.

Record ModifiedImageDiff : Type := mkComponent {
  state : IModifiedImageDiffState;
  container : option DOMRect
}.

Definition constructor : ModifiedImageDiff :=
  {| state := {| value := Fin 1;
                 previousImageSize := None;
                 currentImageSize := None |};
     container := None |}.

(** [e_value] is [e.currentTarget.value]. *)
Definition onValueChange (this : ModifiedImageDiff) (e_value : string)
  : ModifiedImageDiff :=
  let value := parseFloat e_value in
  {| state := {| value := value;
                 previousImageSize := previousImageSize (state this);
                 currentImageSize := currentImageSize (state this) |};
     container := container this |}.

Definition onPreviousImageLoad (this : ModifiedImageDiff)
  (naturalWidth naturalHeight : number) : ModifiedImageDiff :=
  let size := {| width := naturalWidth; height := naturalHeight |} in
  {| state := {| value := value (state this);
                 previousImageSize := Some size;
                 currentImageSize := currentImageSize (state this) |};
     container := container this |}.

Definition onCurrentImageLoad (this : ModifiedImageDiff)
  (naturalWidth naturalHeight : number) : ModifiedImageDiff :=
  let size := {| width := naturalWidth; height := naturalHeight |} in
  {| state := {| value := value (state this);
                 previousImageSize := previousImageSize (state this);
                 currentImageSize := Some size |};
     container := container this |}.

Definition onContainerRef (this : ModifiedImageDiff) (c : option DOMRect)
  : ModifiedImageDiff :=
  {| state := state this; container := c |}.

Record ScaledDimensions : Type := mkScaled {
  scaled_height : number;
  scaled_width : number;
  scaled_containerHeight : number;
  scaled_containerWidth : number
}.

(** [(this.container && rect.width) || 0]: a missing container, a zero and a
    [NaN] all give [0]. *)
Definition measured (c : option DOMRect) (side : DOMRect -> number) : number :=
  match c with
  | Some r => or (side r) zero
  | None => zero
  end.

Definition getScaledDimensions (this : ModifiedImageDiff) : ScaledDimensions :=
  let containerWidth := measured (container this) rect_width in
  let containerHeight := measured (container this) rect_height in
  let containerSize := {| width := containerWidth; height := containerHeight |} in
  let '(height0, width0) :=
    match previousImageSize (state this), currentImageSize (state this) with
    | Some previousImageSize, Some currentImageSize =>
        let previousSize := getFittingSize previousImageSize containerSize in
        let currentSize := getFittingSize currentImageSize containerSize in
        (max (height previousSize) (height currentSize),
         max (width previousSize) (height currentSize))
    | _, _ => (zero, zero)
    end in
  {| scaled_height := height0;
     scaled_width := width0;
     scaled_containerHeight := containerHeight;
     scaled_containerWidth := containerWidth |}.

(** The events the component reacts to, and a run of them from the
    constructor. *)
Inductive event : Type :=
| ValueChange (e_value : string)
| PreviousImageLoad (naturalWidth naturalHeight : number)
| CurrentImageLoad (naturalWidth naturalHeight : number)
| ContainerRef (c : option DOMRect).

Definition handle (this : ModifiedImageDiff) (e : event) : ModifiedImageDiff :=
  match e with
  | ValueChange v => onValueChange this v
  | PreviousImageLoad w h => onPreviousImageLoad this w h
  | CurrentImageLoad w h => onCurrentImageLoad this w h
  | ContainerRef c => onContainerRef this c
  end.

Definition run (evs : list event) : ModifiedImageDiff :=
  fold_left handle evs constructor.

(** ** Notions used by the statements and the proofs *)

(** A size of finite width and height. *)
Definition fin_size (w h : Q) : IImageSize := mkSize (Fin w) (Fin h).

(** [x <= y] of the language, used to state bounds on any number. *)
Definition leb (x y : number) : bool :=
  match x, y with
  | NaN, _ | _, NaN => false
  | Fin a, Fin b => negb (Qltb b a)
  | NInf, _ => true
  | _, PInf => true
  | _, _ => false
  end.

(** The shape shared by the two ratio computations: the extent of the
    usable area along one axis and the size of the image along it. *)
Definition axisRatio (extent size : number) : number :=
  if ltb extent size then div size extent else one.

(** The four ways one axis can stand to the usable extent. *)
Inductive axis_view (u x : Q) : number -> Prop :=
| AxisFits : x <= u -> axis_view u x (Fin 1)
| AxisOver : 0 < u -> u < x -> 1 < x / u -> axis_view u x (Fin (x / u))
| AxisZero : u == 0 -> 0 < x -> axis_view u x PInf
| AxisNeg : u < 0 -> u < x -> x / u < 1 -> axis_view u x (Fin (x / u)).

(** What [ratio] can be on finite sizes, with [uw] and [uh] the usable
    width and height. *)
Inductive ratio_view (w h uw uh : Q) : number -> Prop :=
| RatioInf :
    (uw == 0 /\ 0 < w) \/ (uh == 0 /\ 0 < h) ->
    ratio_view w h uw uh PInf
| RatioFin (r : Q) :
    1 <= r ->
    (0 < uw -> uw < w -> w / uw <= r) ->
    (0 < uh -> uh < h -> h / uh <= r) ->
    ~ (uw == 0 /\ 0 < w) ->
    ~ (uh == 0 /\ 0 < h) ->
    ratio_view w h uw uh (Fin r).

(** The axis ratio [x] is a finite number at most [r], or minus infinity. *)
Definition below (x : number) (r : Q) : Prop :=
  match x with
  | Fin q => q <= r
  | NInf => True
  | _ => False
  end.

(** ** Rendering

    The remaining operators of the language that the render functions use,
    and the four layouts.  An element tree is reduced to the values the
    function computes for it: the style objects it builds and the numbers it
    prints. *)

Module JsArith.

(** The operator [x + y]. *)
Definition add (x y : number) : number :=
  match x, y with
  | NaN, _ | _, NaN => NaN
  | Fin a, Fin b => Fin (a + b)
  | PInf, NInf | NInf, PInf => NaN
  | PInf, _ | _, PInf => PInf
  | NInf, _ | _, NInf => NInf
  end.

(** The operator [x * y]: zero times an infinity is [NaN]. *)
Definition mul (x y : number) : number :=
  match x, y with
  | NaN, _ | _, NaN => NaN
  | Fin a, Fin b => Fin (a * b)
  | Fin a, PInf | PInf, Fin a =>
      match a ?= 0 with Eq => NaN | Gt => PInf | Lt => NInf end
  | Fin a, NInf | NInf, Fin a =>
      match a ?= 0 with Eq => NaN | Gt => NInf | Lt => PInf end
  | PInf, PInf | NInf, NInf => PInf
  | PInf, NInf | NInf, PInf => NInf
  end.

(** [Math.min(x, y)]: [NaN] as soon as one argument is. *)
Definition min (x y : number) : number :=
  match x, y with
  | NaN, _ | _, NaN => NaN
  | NInf, _ | _, NInf => NInf
  | PInf, z | z, PInf => z
  | Fin a, Fin b => if Qltb b a then Fin b else Fin a
  end.

End JsArith.

Import JsArith.

(** The outcome of code that may raise: reading a property of [null] raises
    a [TypeError]. *)
Inductive result (A : Type) : Type :=
| Ok (a : A)
| TypeError.

Arguments Ok {A} a.
Arguments TypeError {A}.

Definition result_bind {A B : Type} (m : result A) (k : A -> result B)
  : result B :=
  match m with
  | Ok a => k a
  | TypeError => TypeError
  end.

(** [size!.width] and [size!.height] on a size that may be null. *)
Definition width_of (size : option IImageSize) : result number :=
  match size with
  | Some s => Ok (width s)
  | None => TypeError
  end.

Definition height_of (size : option IImageSize) : result number :=
  match size with
  | Some s => Ok (height s)
  | None => TypeError
  end.

(** The four values of the diff type, in the order of the tabs. *)
Inductive ImageDiffType : Type := TwoUp | Swipe | OnionSkin | Difference.

Definition ImageDiffType_eqb (a b : ImageDiffType) : bool :=
  match a, b with
  | TwoUp, TwoUp | Swipe, Swipe | OnionSkin, OnionSkin
  | Difference, Difference => true
  | _, _ => false
  end.

(** [{ maxHeight, maxWidth }], the style given to an image. *)
Record ImageStyle : Type := mkImageStyle {
  maxHeight : number;
  maxWidth : number
}.

(** [{ height, width }], the style of a frame holding an image. *)
Record FrameStyle : Type := mkFrameStyle {
  frame_height : number;
  frame_width : number
}.

(** The inner panel of the swipe, fade and difference layouts: the frame
    style with its [left] offset. *)
Record PanelStyle : Type := mkPanelStyle {
  panel_height : number;
  panel_width : number;
  panel_left : number
}.

(** The 2-up layout: the style shared by the two images and the width and
    height printed in the footer of each. *)
Record TwoUpView : Type := mkTwoUp {
  twoUp_style : ImageStyle;
  twoUp_before_footer : number * number;
  twoUp_after_footer : number * number
}.

Record DifferenceView : Type := mkDifference {
  difference_panel : PanelStyle;
  difference_before : ImageStyle;
  difference_after : ImageStyle
}.

(** The fade layout: the slider is placed by the top and left parts of its
    margin and shows the state value. *)
Record FadeView : Type := mkFade {
  fade_panel : PanelStyle;
  fade_before_frame : FrameStyle;
  fade_before : ImageStyle;
  fade_after_frame : FrameStyle;
  fade_opacity : number;
  fade_after : ImageStyle;
  fade_input_margin_top : number;
  fade_input_margin_left : number;
  fade_input_value : number
}.

Record SwipeView : Type := mkSwipe {
  swipe_panel : PanelStyle;
  swipe_after_frame : FrameStyle;
  swipe_after : ImageStyle;
  swiper_width : number;
  swiper_height : number;
  swipe_before_frame : FrameStyle;
  swipe_before : ImageStyle;
  swipe_input_margin_top : number;
  swipe_input_margin_left : number;
  swipe_input_width : number;
  swipe_input_value : number
}.

Definition render2Up (this : ModifiedImageDiff)
  (height width widthContainer : number) : result TwoUpView :=
  let style :=
    {| maxHeight := add height SIZE_CONTROLS;
       maxWidth := min (div (sub widthContainer (Fin 20)) (Fin 2)) width |} in
  result_bind (width_of (previousImageSize (state this))) (fun pw =>
  result_bind (height_of (previousImageSize (state this))) (fun ph =>
  result_bind (width_of (currentImageSize (state this))) (fun cw =>
  result_bind (height_of (currentImageSize (state this))) (fun ch =>
  Ok {| twoUp_style := style;
        twoUp_before_footer := (pw, ph);
        twoUp_after_footer := (cw, ch) |})))).

Definition renderDifference (this : ModifiedImageDiff)
  (height width widthContainer : number) : DifferenceView :=
  {| difference_panel :=
       {| panel_height := height;
          panel_width := width;
          panel_left :=
            add (div (sub (sub widthContainer PADDING) width) (Fin 2))
                (div PADDING (Fin 2)) |};
     difference_before := {| maxHeight := height; maxWidth := width |};
     difference_after := {| maxHeight := height; maxWidth := width |} |}.

Definition renderFade (this : ModifiedImageDiff)
  (height width widthContainer : number) : FadeView :=
  let style := {| frame_height := height; frame_width := width |} in
  {| fade_panel :=
       {| panel_height := frame_height style;
          panel_width := frame_width style;
          panel_left :=
            add (div (sub (sub widthContainer PADDING) width) (Fin 2))
                (div PADDING (Fin 2)) |};
     fade_before_frame := style;
     fade_before := {| maxHeight := height; maxWidth := width |};
     fade_after_frame := style;
     fade_opacity := value (state this);
     fade_after := {| maxHeight := height; maxWidth := width |};
     fade_input_margin_top := add height (Fin 10);
     fade_input_margin_left := div (sub width (Fin 129)) (Fin 2);
     fade_input_value := value (state this) |}.

Definition renderSwipe (this : ModifiedImageDiff)
  (height width widthContainer : number) : SwipeView :=
  let style := {| frame_height := height; frame_width := width |} in
  {| swipe_panel :=
       {| panel_height := frame_height style;
          panel_width := frame_width style;
          panel_left :=
            add (div (sub (sub widthContainer PADDING) width) (Fin 2))
                (div PADDING (Fin 2)) |};
     swipe_after_frame := style;
     swipe_after := {| maxHeight := height; maxWidth := width |};
     swiper_width := mul width (sub (Fin 1) (value (state this)));
     swiper_height := add height (Fin 10);
     swipe_before_frame := style;
     swipe_before := {| maxHeight := height; maxWidth := width |};
     swipe_input_margin_top := add height (Fin 10);
     swipe_input_margin_left := Fin (-7);
     swipe_input_width := add width (Fin 14);
     swipe_input_value := value (state this) |}.

(** The children of the panel: each layout is there when the diff type is
    its own, and the tab bar always is. *)
Record View : Type := mkView {
  view_twoUp : option TwoUpView;
  view_swipe : option SwipeView;
  view_fade : option FadeView;
  view_difference : option DifferenceView;
  tabBar_selectedIndex : ImageDiffType
}.

(** [cond && e]: [e] is evaluated only when [cond] holds. *)
Definition and_then {A : Type} (cond : bool) (e : result A)
  : result (option A) :=
  if cond then result_bind e (fun a => Ok (Some a)) else Ok None.

Definition render (this : ModifiedImageDiff) (diffType : ImageDiffType)
  : result View :=
  let d := getScaledDimensions this in
  let height := scaled_height d in
  let width := scaled_width d in
  let containerWidth := scaled_containerWidth d in
  result_bind
    (and_then (ImageDiffType_eqb diffType TwoUp)
              (render2Up this height width containerWidth)) (fun v2 =>
  result_bind
    (and_then (ImageDiffType_eqb diffType Swipe)
              (Ok (renderSwipe this height width containerWidth))) (fun vs =>
  result_bind
    (and_then (ImageDiffType_eqb diffType OnionSkin)
              (Ok (renderFade this height width containerWidth))) (fun vf =>
  result_bind
    (and_then (ImageDiffType_eqb diffType Difference)
              (Ok (renderDifference this height width containerWidth)))
    (fun vd =>
  Ok {| view_twoUp := v2;
        view_swipe := vs;
        view_fade := vf;
        view_difference := vd;
        tabBar_selectedIndex := diffType |})))).

(** Two events of the same kind: the later one overrides the earlier. *)
Definition same_kind (e1 e2 : event) : bool :=
  match e1, e2 with
  | ValueChange _, ValueChange _
  | PreviousImageLoad _ _, PreviousImageLoad _ _
  | CurrentImageLoad _ _, CurrentImageLoad _ _
  | ContainerRef _, ContainerRef _ => true
  | _, _ => false
  end.

(** ** The fitting calculator in binary64

    [getFittingSize] once more, line by line, with the rounding operators:
    what the source computes on doubles. *)

Module Rounded.

Definition containerWidth (containerSize : IImageSize) : number :=
  Binary64.sub (width containerSize) PADDING.

Definition containerHeight (containerSize : IImageSize) : number :=
  Binary64.sub (Binary64.sub (height containerSize) PADDING) SIZE_CONTROLS.

Definition heightRatio (imageSize containerSize : IImageSize) : number :=
  if ltb (containerHeight containerSize) (height imageSize)
  then Binary64.div (height imageSize) (containerHeight containerSize)
  else one.

Definition widthRatio (imageSize containerSize : IImageSize) : number :=
  if ltb (containerWidth containerSize) (width imageSize)
  then Binary64.div (width imageSize) (containerWidth containerSize)
  else one.

Definition ratio (imageSize containerSize : IImageSize) : number :=
  let ratio := max one (widthRatio imageSize containerSize) in
  if ltb (widthRatio imageSize containerSize) (heightRatio imageSize containerSize)
  then max one (heightRatio imageSize containerSize)
  else ratio.

Definition getFittingSize (imageSize containerSize : IImageSize) : IImageSize :=
  {| width := Binary64.div (width imageSize) (ratio imageSize containerSize);
     height := Binary64.div (height imageSize) (ratio imageSize containerSize) |}.

End Rounded.

(** The rational a finite number stands for. *)
Definition finite_part (x : number) : Q :=
  match x with
  | Fin q => q
  | _ => 0
  end.

(** ** The slider

    The value-changed handler is bound to one element only,
    [<input type="range" min={0} max={1} step={0.001}>].  The value of such
    an element is always a step of the range, clamped between its minimum
    and maximum: position [k] of 1000, written as a decimal. *)





(** * Properties *)

(** ** Numbers *)

Lemma Qltb_spec (a b : Q) : BoolSpec (a < b) (b <= a) (Qltb a b).
Proof.
  unfold Qltb. destruct (Qcompare_spec a b); constructor; lra.
Qed.

Lemma Qis0_spec (a : Q) : BoolSpec (a == 0) (~ a == 0) (Qis0 a).
Proof.
  unfold Qis0. destruct (Qcompare_spec a 0); constructor; lra.
Qed.

(** Case analysis on every comparison of rationals in the goal. *)
Ltac case_Qltb :=
  repeat match goal with
    | |- context [Qltb ?a ?b] => destruct (Qltb_spec a b)
    end.

Lemma Qltb_true (a b : Q) : a < b -> Qltb a b = true.
Proof. intros H. destruct (Qltb_spec a b); [reflexivity | lra]. Qed.

Lemma Qltb_false (a b : Q) : b <= a -> Qltb a b = false.
Proof. intros H. destruct (Qltb_spec a b); [lra | reflexivity]. Qed.

Lemma Qis0_true (a : Q) : a == 0 -> Qis0 a = true.
Proof. intros H. destruct (Qis0_spec a); [reflexivity | contradiction]. Qed.

Lemma Qis0_false (a : Q) : ~ a == 0 -> Qis0 a = false.
Proof. intros H. destruct (Qis0_spec a); [contradiction | reflexivity]. Qed.

#[export] Instance num_eq_equiv : Equivalence num_eq.
Proof.
  split.
  - intros [a| | |]; simpl; auto. reflexivity.
  - intros [a| | |] [b| | |]; simpl; auto. intros H; symmetry; exact H.
  - intros [a| | |] [b| | |] [c| | |]; simpl; auto; try contradiction.
    intros H1 H2; rewrite H1; exact H2.
Qed.

#[export] Instance size_eq_equiv : Equivalence size_eq.
Proof.
  split.
  - intros a; split; reflexivity.
  - intros a b [H1 H2]; split; symmetry; assumption.
  - intros a b c [H1 H2] [H3 H4]; split; etransitivity; eassumption.
Qed.

Lemma div_one (x : number) : div x one === x.
Proof.
  destruct x as [a| | |]; simpl; auto. field.
Qed.

Lemma div_Fin (a b : Q) : ~ b == 0 -> div (Fin a) (Fin b) = Fin (a / b).
Proof. intros H. simpl. rewrite (Qis0_false _ H). reflexivity. Qed.

Lemma div_Fin_zero (a b : Q) : b == 0 -> 0 < a -> div (Fin a) (Fin b) = PInf.
Proof.
  intros Hb Ha. simpl. rewrite (Qis0_true _ Hb).
  destruct (Qcompare_spec a 0); [lra | lra | reflexivity].
Qed.

Lemma ltb_Fin (a b : Q) : ltb (Fin a) (Fin b) = Qltb a b.
Proof. reflexivity. Qed.


Lemma max_Fin (a b : Q) : max (Fin a) (Fin b) === Fin (Qmax a b).
Proof.
  simpl. destruct (Qltb_spec a b); simpl.
  - symmetry. apply Q.max_r. lra.
  - symmetry. apply Q.max_l. assumption.
Qed.

(** ** The fitting calculator *)

(** The instrumented function computes the same size. *)
Lemma getFittingSizeT_value (imageSize containerSize : IImageSize) :
  fst (getFittingSizeT imageSize containerSize)
  = getFittingSize imageSize containerSize.
Proof.
  unfold getFittingSizeT, getFittingSize, ratio, heightRatio, widthRatio.
  destruct (ltb (containerHeight containerSize) (height imageSize));
    destruct (ltb (containerWidth containerSize) (width imageSize));
    cbn [bind divT ret fst];
    match goal with
    | |- context [ltb ?x ?y] => destruct (ltb x y)
    end; reflexivity.
Qed.



Lemma widthRatio_axis (imageSize containerSize : IImageSize) :
  widthRatio imageSize containerSize
  = axisRatio (containerWidth containerSize) (width imageSize).
Proof. reflexivity. Qed.

Lemma heightRatio_axis (imageSize containerSize : IImageSize) :
  heightRatio imageSize containerSize
  = axisRatio (containerHeight containerSize) (height imageSize).
Proof. reflexivity. Qed.

Lemma containerWidth_fin (cw ch : Q) :
  containerWidth (fin_size cw ch) = Fin (cw - 20).
Proof. reflexivity. Qed.

Lemma containerHeight_fin (cw ch : Q) :
  containerHeight (fin_size cw ch) = Fin (ch - 20 - 60).
Proof. reflexivity. Qed.

(** Division by a positive or by a negative rational, against a bound. *)

Lemma Qdiv_gt_1 (x u : Q) : 0 < u -> u < x -> 1 < x / u.
Proof. intros Hu Hx. apply Qlt_shift_div_l; lra. Qed.

Lemma Qdiv_neg_lt_1 (x u : Q) : u < 0 -> u < x -> x / u < 1.
Proof.
  intros Hu Hx.
  assert (E : x / u == (- x) / (- u)) by (field; lra).
  rewrite E. apply Qlt_shift_div_r; lra.
Qed.

Lemma axisRatio_view (u x : Q) : axis_view u x (axisRatio (Fin u) (Fin x)).
Proof.
  unfold axisRatio. rewrite ltb_Fin.
  destruct (Qltb_spec u x) as [Hlt | Hge].
  - destruct (Qcompare_spec u 0) as [H0 | Hneg | Hpos].
    + rewrite div_Fin_zero by lra. apply AxisZero; lra.
    + rewrite div_Fin by lra.
      apply AxisNeg; try assumption. apply Qdiv_neg_lt_1; assumption.
    + rewrite div_Fin by lra.
      apply AxisOver; try assumption. apply Qdiv_gt_1; assumption.
  - apply AxisFits; assumption.
Qed.

(** C5. The worked example: an image of 1000 by 500 in a container of 620
    by 300 has the usable area 600 by 220, the width ratio 1000/600 and the
    height ratio 500/220; the height binds and the output is 440 by 220. *)
Theorem getFittingSize_example_1000_500 :
  let imageSize := fin_size 1000 500 in
  let containerSize := fin_size 620 300 in
  containerWidth containerSize === Fin 600
  /\ containerHeight containerSize === Fin 220
  /\ widthRatio imageSize containerSize === Fin (1000 / 600)
  /\ heightRatio imageSize containerSize === Fin (500 / 220)
  /\ ltb (widthRatio imageSize containerSize)
         (heightRatio imageSize containerSize) = true
  /\ ratio imageSize containerSize === Fin (500 / 220)
  /\ size_eq (getFittingSize imageSize containerSize) (fin_size 440 220).
Proof.
  cbv zeta. repeat split; vm_compute; reflexivity.
Qed.

Lemma ratio_fin_view (w h cw ch : Q) :
  ratio_view w h (cw - 20) (ch - 20 - 60)
    (ratio (fin_size w h) (fin_size cw ch)).
Proof.
  unfold ratio.
  rewrite widthRatio_axis, heightRatio_axis.
  rewrite containerWidth_fin, containerHeight_fin.
  cbn [width height fin_size].
  destruct (axisRatio_view (cw - 20) w);
    destruct (axisRatio_view (ch - 20 - 60) h);
    cbn [ltb max one];
    case_Qltb;
    try (apply RatioInf; lra);
    try (apply RatioFin; lra).
Qed.

Lemma Qdiv_settled (x u r : Q) :
  1 <= r ->
  (0 < u -> u < x -> x / u <= r) ->
  ~ (u == 0 /\ 0 < x) ->
  ~ (0 <= u /\ u < x / r).
Proof.
  intros Hr Hover Hzero [Hu Hlt].
  assert (Er : x / r * r == x) by (field; lra).
  set (q := x / r) in *.
  assert (Hq : 0 < q) by lra.
  assert (Hx : 0 < x) by nra.
  assert (Hqx : q <= x) by nra.
  assert (Hu' : 0 < u).
  { destruct (Qcompare_spec u 0); [exfalso; apply Hzero; split; lra | lra | lra]. }
  assert (Hux : u < x) by lra.
  specialize (Hover Hu' Hux).
  assert (Eu : x / u * u == x) by (field; lra).
  set (p := x / u) in *.
  nra.
Qed.

Lemma Qdiv_nonneg (x r : Q) : 1 <= r -> 0 < x -> 0 <= x / r.
Proof.
  intros Hr Hx. apply Qle_shift_div_l; lra.
Qed.

(** On finite sizes the output is finite, and along each axis it does not
    exceed a usable extent that is zero or more. *)
Lemma getFittingSize_fin_settled (w h cw ch : Q) :
  exists ow oh : Q,
    getFittingSize (fin_size w h) (fin_size cw ch) = fin_size ow oh
    /\ ~ (0 <= cw - 20 /\ cw - 20 < ow)
    /\ ~ (0 <= ch - 20 - 60 /\ ch - 20 - 60 < oh)
    /\ (0 < w -> 0 <= ow)
    /\ (0 < h -> 0 <= oh).
Proof.
  unfold getFittingSize.
  destruct (ratio_fin_view w h cw ch) as [Hinf | r Hr Hw Hh Hzw Hzh].
  - exists 0, 0. cbn [width height fin_size div].
    repeat split; lra.
  - exists (w / r), (h / r). cbn [width height fin_size].
    rewrite !div_Fin by lra.
    repeat split.
    + apply Qdiv_settled; assumption.
    + apply Qdiv_settled; assumption.
    + apply Qdiv_nonneg; assumption.
    + apply Qdiv_nonneg; assumption.
Qed.

(** A size that exceeds no usable extent of zero or more is left as it is. *)
Lemma axisRatio_le_one (u x : Q) :
  ~ (0 <= u /\ u < x) -> leb (axisRatio (Fin u) (Fin x)) one = true.
Proof.
  intros H. destruct (axisRatio_view u x); cbn [leb one].
  - rewrite Qltb_false by lra. reflexivity.
  - exfalso. apply H. lra.
  - exfalso. apply H. lra.
  - rewrite Qltb_false by lra. reflexivity.
Qed.

Lemma max_one_le (x : number) : leb x one = true -> max one x = one.
Proof.
  destruct x as [a| | |]; cbn [leb max one]; try discriminate; try reflexivity.
  destruct (Qltb 1 a); [discriminate | reflexivity].
Qed.

Lemma ltb_NaN_r (x : number) : ltb x NaN = false.
Proof. destruct x; reflexivity. Qed.



(** [ratio] is 1 as soon as the width ratio is at most 1 and the height
    ratio is at most 1 or is not a number. *)
Lemma ratio_one (imageSize containerSize : IImageSize) :
  leb (widthRatio imageSize containerSize) one = true ->
  leb (heightRatio imageSize containerSize) one = true
  \/ heightRatio imageSize containerSize = NaN ->
  ratio imageSize containerSize = one.
Proof.
  intros Hw [Hh | Hh]; unfold ratio.
  - rewrite (max_one_le _ Hw), (max_one_le _ Hh).
    destruct (ltb _ _); reflexivity.
  - rewrite Hh, ltb_NaN_r. apply max_one_le. exact Hw.
Qed.

Lemma getFittingSize_ratio_one (imageSize containerSize : IImageSize) :
  ratio imageSize containerSize = one ->
  size_eq (getFittingSize imageSize containerSize) imageSize.
Proof.
  intros R. unfold getFittingSize. rewrite R.
  split; cbn [width height]; apply div_one.
Qed.

(** The value [ratio] takes, against the two axis ratios it is made from. *)
Lemma ratio_cases (wr hr : number) :
  match (if ltb wr hr then max one hr else max one wr) with
  | Fin r => 1 <= r /\ below wr r /\ (below hr r \/ hr = NaN)
  | NInf => False
  | _ => True
  end.
Proof.
  destruct wr as [a| | |], hr as [b| | |]; cbn [ltb max one below];
    case_Qltb;
    cbn [below]; auto; repeat split; auto; try lra; left; lra.
Qed.






Lemma widthRatio_over (w h cw ch : Q) :
  ~ cw - 20 == 0 -> cw - 20 < w ->
  widthRatio (fin_size w h) (fin_size cw ch) = Fin (w / (cw - 20)).
Proof.
  intros H0 Hlt. rewrite widthRatio_axis, containerWidth_fin.
  cbn [width fin_size]. unfold axisRatio.
  rewrite ltb_Fin, Qltb_true by assumption. apply div_Fin. assumption.
Qed.

Lemma heightRatio_over (w h cw ch : Q) :
  ~ ch - 20 - 60 == 0 -> ch - 20 - 60 < h ->
  heightRatio (fin_size w h) (fin_size cw ch) = Fin (h / (ch - 20 - 60)).
Proof.
  intros H0 Hlt. rewrite heightRatio_axis, containerHeight_fin.
  cbn [height fin_size]. unfold axisRatio.
  rewrite ltb_Fin, Qltb_true by assumption. apply div_Fin. assumption.
Qed.

Lemma widthRatio_fits (w h cw ch : Q) :
  w <= cw - 20 -> widthRatio (fin_size w h) (fin_size cw ch) = Fin 1.
Proof.
  intros Hle. rewrite widthRatio_axis, containerWidth_fin.
  cbn [width fin_size]. unfold axisRatio.
  rewrite ltb_Fin, Qltb_false by assumption. reflexivity.
Qed.

Lemma heightRatio_fits (w h cw ch : Q) :
  h <= ch - 20 - 60 -> heightRatio (fin_size w h) (fin_size cw ch) = Fin 1.
Proof.
  intros Hle. rewrite heightRatio_axis, containerHeight_fin.
  cbn [height fin_size]. unfold axisRatio.
  rewrite ltb_Fin, Qltb_false by assumption. reflexivity.
Qed.

Lemma getFittingSize_fin_ratio (w h cw ch r : Q) :
  ratio (fin_size w h) (fin_size cw ch) = Fin r -> ~ r == 0 ->
  getFittingSize (fin_size w h) (fin_size cw ch) = fin_size (w / r) (h / r).
Proof.
  intros R Hr. unfold getFittingSize. rewrite R. cbn [width height fin_size].
  rewrite !div_Fin by assumption. reflexivity.
Qed.

(** With both dimensions over the usable area, [ratio] is the larger of the
    two axis ratios. *)
Lemma ratio_both_over (w h cw ch : Q) :
  0 < cw - 20 -> 0 < ch - 20 - 60 -> cw - 20 < w -> ch - 20 - 60 < h ->
  exists r : Q,
    ratio (fin_size w h) (fin_size cw ch) = Fin r
    /\ r == Qmax (w / (cw - 20)) (h / (ch - 20 - 60))
    /\ 1 < r.
Proof.
  intros Huw Huh Hw Hh.
  pose proof (Qdiv_gt_1 _ _ Huw Hw) as Hqw.
  pose proof (Qdiv_gt_1 _ _ Huh Hh) as Hqh.
  unfold ratio.
  rewrite widthRatio_over, heightRatio_over by lra.
  cbn [ltb max one].
  destruct (Qltb_spec (w / (cw - 20)) (h / (ch - 20 - 60))) as [Hlt | Hge].
  - rewrite Qltb_true by assumption.
    eexists; split; [reflexivity | split; [| assumption]].
    symmetry. apply Q.max_r. lra.
  - rewrite Qltb_true by assumption.
    eexists; split; [reflexivity | split; [| assumption]].
    symmetry. apply Q.max_l. assumption.
Qed.

(** In exact arithmetic an image larger than the usable area in both
    dimensions is divided by the larger of the two ratios, fits the usable
    area and keeps its aspect ratio. *)
Lemma getFittingSize_both_over (w h cw ch : Q) :
  0 < cw - 20 -> 0 < ch - 20 - 60 -> cw - 20 < w -> ch - 20 - 60 < h ->
  exists r ow oh : Q,
    ratio (fin_size w h) (fin_size cw ch) = Fin r
    /\ r == Qmax (w / (cw - 20)) (h / (ch - 20 - 60))
    /\ getFittingSize (fin_size w h) (fin_size cw ch) = fin_size ow oh
    /\ ow == w / r /\ oh == h / r
    /\ ow <= cw - 20 /\ oh <= ch - 20 - 60
    /\ ow * h == oh * w.
Proof.
  intros Huw Huh Hw Hh.
  destruct (ratio_both_over w h cw ch Huw Huh Hw Hh) as (r & R & Er & Hr).
  exists r, (w / r), (h / r).
  split; [exact R |]. split; [exact Er |].
  split; [apply getFittingSize_fin_ratio; [exact R | lra] |].
  split; [reflexivity |]. split; [reflexivity |].
  assert (Hrw : w / (cw - 20) <= r) by (rewrite Er; apply Q.le_max_l).
  assert (Hrh : h / (ch - 20 - 60) <= r) by (rewrite Er; apply Q.le_max_r).
  assert (Ew : w / (cw - 20) * (cw - 20) == w) by (field; lra).
  assert (Eh : h / (ch - 20 - 60) * (ch - 20 - 60) == h) by (field; lra).
  repeat split.
  - apply Qle_shift_div_r; [lra |].
    set (q := w / (cw - 20)) in *. nra.
  - apply Qle_shift_div_r; [lra |].
    set (q := h / (ch - 20 - 60)) in *. nra.
  - field. lra.
Qed.

(** In exact arithmetic an image that exceeds the usable area in exactly
    one dimension comes out with that dimension equal to the usable extent
    and the other divided by the same ratio. *)
Lemma getFittingSize_one_over (w h cw ch : Q) :
  0 < cw - 20 -> 0 < ch - 20 - 60 ->
  (cw - 20 < w -> h <= ch - 20 - 60 ->
   ratio (fin_size w h) (fin_size cw ch) = Fin (w / (cw - 20))
   /\ size_eq (getFittingSize (fin_size w h) (fin_size cw ch))
              (fin_size (cw - 20) (h / (w / (cw - 20)))))
  /\ (ch - 20 - 60 < h -> w <= cw - 20 ->
      ratio (fin_size w h) (fin_size cw ch) = Fin (h / (ch - 20 - 60))
      /\ size_eq (getFittingSize (fin_size w h) (fin_size cw ch))
                 (fin_size (w / (h / (ch - 20 - 60))) (ch - 20 - 60))).
Proof.
  intros Huw Huh. split.
  - intros Hw Hh.
    pose proof (Qdiv_gt_1 _ _ Huw Hw) as Hq.
    assert (R : ratio (fin_size w h) (fin_size cw ch) = Fin (w / (cw - 20))).
    { unfold ratio. rewrite widthRatio_over, heightRatio_fits by lra.
      cbn [ltb max one].
      rewrite (Qltb_false (w / (cw - 20)) 1) by lra.
      rewrite Qltb_true by assumption. reflexivity. }
    split; [exact R |].
    rewrite (getFittingSize_fin_ratio _ _ _ _ _ R) by lra.
    split; cbn [width height fin_size num_eq]; [| reflexivity].
    field. lra.
  - intros Hh Hw.
    pose proof (Qdiv_gt_1 _ _ Huh Hh) as Hq.
    assert (R : ratio (fin_size w h) (fin_size cw ch)
                = Fin (h / (ch - 20 - 60))).
    { unfold ratio. rewrite widthRatio_fits, heightRatio_over by lra.
      cbn [ltb max one].
      rewrite !Qltb_true by assumption. reflexivity. }
    split; [exact R |].
    rewrite (getFittingSize_fin_ratio _ _ _ _ _ R) by lra.
    split; cbn [width height fin_size num_eq]; [reflexivity |].
    field. lra.
Qed.

(** ** Divisions performed *)

Lemma divisors_eq (imageSize containerSize : IImageSize) :
  divisors imageSize containerSize
  = (if ltb (containerHeight containerSize) (height imageSize)
     then [containerHeight containerSize] else [])
    ++ (if ltb (containerWidth containerSize) (width imageSize)
        then [containerWidth containerSize] else [])
    ++ [ratio imageSize containerSize; ratio imageSize containerSize].
Proof.
  unfold divisors, getFittingSizeT, ratio, heightRatio, widthRatio.
  destruct (ltb (containerHeight containerSize) (height imageSize));
    destruct (ltb (containerWidth containerSize) (width imageSize));
    cbn [bind divT ret snd app];
    match goal with
    | |- context [ltb ?x ?y] => destruct (ltb x y)
    end; reflexivity.
Qed.

Lemma ratio_fin_not_zero (w h cw ch : Q) :
  is_zero (ratio (fin_size w h) (fin_size cw ch)) = false.
Proof.
  destruct (ratio_fin_view w h cw ch); cbn [is_zero]; [reflexivity |].
  apply Qis0_false. lra.
Qed.

Lemma divides_by_zero_fin (w h cw ch : Q) :
  divides_by_zero (fin_size w h) (fin_size cw ch)
  = (Qltb (ch - 20 - 60) h && Qis0 (ch - 20 - 60))
    || (Qltb (cw - 20) w && Qis0 (cw - 20)).
Proof.
  unfold divides_by_zero. rewrite divisors_eq.
  rewrite containerWidth_fin, containerHeight_fin.
  cbn [width height fin_size]. rewrite !ltb_Fin.
  rewrite !existsb_app. cbn [existsb].
  rewrite ratio_fin_not_zero.
  destruct (Qltb (ch - 20 - 60) h), (Qltb (cw - 20) w);
    cbn [existsb is_zero andb orb];
    repeat rewrite orb_false_r; reflexivity.
Qed.

(** The output is [0 x 0] when a usable extent is exactly zero. *)
Lemma getFittingSize_usable_zero (w h cw ch : Q) :
  0 < w -> 0 < h ->
  cw - 20 == 0 \/ ch - 20 - 60 == 0 ->
  getFittingSize (fin_size w h) (fin_size cw ch) = fin_size 0 0.
Proof.
  intros Hw Hh Hz. unfold getFittingSize.
  destruct (ratio_fin_view w h cw ch) as [_ | r _ _ _ Hzw Hzh].
  - reflexivity.
  - exfalso. destruct Hz; [apply Hzw | apply Hzh]; split; assumption.
Qed.

(** C6, as the code has it.  For an image of positive width and height and
    any container, zero and smaller than the reserved space included, the
    output is a pair of finite numbers that are not negative.  A division
    by zero is performed exactly when the usable width or the usable height
    is zero (a container 20 wide or 80 high); it raises nothing, the ratio
    is then infinite and the output is [0 x 0]. *)
Theorem getFittingSize_finite_nonneg (w h cw ch : Q) :
  0 < w -> 0 < h ->
  is_finite (width (getFittingSize (fin_size w h) (fin_size cw ch))) = true
  /\ is_finite (height (getFittingSize (fin_size w h) (fin_size cw ch))) = true
  /\ is_nonneg (width (getFittingSize (fin_size w h) (fin_size cw ch))) = true
  /\ is_nonneg (height (getFittingSize (fin_size w h) (fin_size cw ch))) = true
  /\ (divides_by_zero (fin_size w h) (fin_size cw ch) = true
      <-> cw - 20 == 0 \/ ch - 20 - 60 == 0)
  /\ (cw - 20 == 0 \/ ch - 20 - 60 == 0 ->
      getFittingSize (fin_size w h) (fin_size cw ch) = fin_size 0 0).
Proof.
  intros Hw Hh.
  destruct (getFittingSize_fin_settled w h cw ch)
    as (ow & oh & E & _ & _ & Now & Noh).
  specialize (Now Hw). specialize (Noh Hh).
  rewrite E. cbn [width height fin_size is_finite is_nonneg].
  rewrite !Qltb_false by assumption.
  repeat split; try reflexivity.
  - rewrite divides_by_zero_fin. intros H.
    apply orb_true_iff in H. destruct H as [H | H];
      apply andb_true_iff in H; destruct H as [_ H];
      destruct (Qis0_spec (ch - 20 - 60)); destruct (Qis0_spec (cw - 20));
      try discriminate; auto.
  - rewrite divides_by_zero_fin. intros [H | H].
    + rewrite (Qis0_true _ H), (Qltb_true (cw - 20) w) by lra.
      apply orb_true_r.
    + rewrite (Qis0_true _ H), (Qltb_true (ch - 20 - 60) h) by lra.
      reflexivity.
  - rewrite <- E. apply getFittingSize_usable_zero; assumption.
Qed.

Lemma getFittingSize_finite_nonneg_witness :
  is_finite (width (getFittingSize (fin_size 100 50) (fin_size 0 0))) = true
  /\ is_finite (height (getFittingSize (fin_size 100 50) (fin_size 0 0))) = true
  /\ is_nonneg (width (getFittingSize (fin_size 100 50) (fin_size 0 0))) = true
  /\ is_nonneg (height (getFittingSize (fin_size 100 50) (fin_size 0 0))) = true
  /\ (divides_by_zero (fin_size 100 50) (fin_size 0 0) = true
      <-> 0 - 20 == 0 \/ 0 - 20 - 60 == 0)
  /\ (0 - 20 == 0 \/ 0 - 20 - 60 == 0 ->
      getFittingSize (fin_size 100 50) (fin_size 0 0) = fin_size 0 0).
Proof.
  apply (getFittingSize_finite_nonneg 100 50 0 0); reflexivity.
Defined.

(** C6, as stated, fails: in a container 20 wide the usable width is zero
    and the width ratio is computed by a division by zero. *)
Lemma getFittingSize_divides_by_zero :
  divides_by_zero (fin_size 100 50) (fin_size 20 300) = true
  /\ divisors (fin_size 100 50) (fin_size 20 300) = [Fin (20 - 20); PInf; PInf]
  /\ widthRatio (fin_size 100 50) (fin_size 20 300) = PInf.
Proof.
  repeat split; reflexivity.
Qed.

(** ** The component *)

#[export] Instance max_proper : Proper (num_eq ==> num_eq ==> num_eq) max.
Proof.
  intros [a| | |] [a'| | |] Ha [b| | |] [b'| | |] Hb;
    cbn [num_eq] in Ha, Hb; try contradiction; cbn [max num_eq]; auto.
  destruct (Qltb_spec a b), (Qltb_spec a' b'); cbn [num_eq]; lra.
Qed.

(** Against a container measured as [0 x 0] the usable extents are negative
    and every size is returned as it is. *)
Lemma getFittingSize_zero_container (imageSize : IImageSize) :
  size_eq (getFittingSize imageSize (mkSize zero zero)) imageSize.
Proof.
  apply getFittingSize_ratio_one. apply ratio_one.
  - rewrite widthRatio_axis.
    destruct imageSize as [[x| | |] hh]; cbn [width]; try reflexivity.
    apply axisRatio_le_one. lra.
  - left. rewrite heightRatio_axis.
    destruct imageSize as [ww [x| | |]]; cbn [height]; try reflexivity.
    apply axisRatio_le_one. lra.
Qed.

(** C7, as the code has it.  With both image sizes loaded and the container
    measured as zero (not mounted, or a [0 x 0] rectangle), each image is
    fitted to its own natural size, so the layout height is the larger of
    the two natural heights and the layout width the larger of the previous
    natural width and the current natural height; nothing is raised. *)
Theorem getScaledDimensions_zero_container
  (v : number) (previous current : IImageSize) (c : option DOMRect) :
  measured c rect_width = zero ->
  measured c rect_height = zero ->
  let this := mkComponent (mkState v (Some previous) (Some current)) c in
  scaled_height (getScaledDimensions this)
    === max (height previous) (height current)
  /\ scaled_width (getScaledDimensions this)
    === max (width previous) (height current)
  /\ scaled_containerHeight (getScaledDimensions this) = zero
  /\ scaled_containerWidth (getScaledDimensions this) = zero.
Proof.
  intros Hw Hh this. unfold getScaledDimensions, this.
  cbn [state container previousImageSize currentImageSize].
  rewrite Hw, Hh.
  cbn [scaled_height scaled_width scaled_containerHeight scaled_containerWidth].
  pose proof (getFittingSize_zero_container previous) as [Pw Ph].
  pose proof (getFittingSize_zero_container current) as [Cw Ch].
  repeat split.
  - rewrite Ph, Ch. reflexivity.
  - rewrite Pw, Ch. reflexivity.
Qed.

Lemma getScaledDimensions_zero_container_witness :
  let this :=
    mkComponent (mkState (Fin 1) (Some (fin_size 100 50))
                         (Some (fin_size 300 60)))
                (Some (mkRect (Fin 0) (Fin 0))) in
  scaled_height (getScaledDimensions this) === max (Fin 50) (Fin 60)
  /\ scaled_width (getScaledDimensions this) === max (Fin 100) (Fin 60)
  /\ scaled_containerHeight (getScaledDimensions this) = zero
  /\ scaled_containerWidth (getScaledDimensions this) = zero.
Proof.
  apply (getScaledDimensions_zero_container
           (Fin 1) (fin_size 100 50) (fin_size 300 60)
           (Some (mkRect (Fin 0) (Fin 0)))); reflexivity.
Defined.

(** C7, as stated, fails: with images of 100 by 50 and 300 by 60 loaded and
    a [0 x 0] container the layout is 60 high and 100 wide, not zero. *)
Lemma zero_container_layout_not_zero :
  let this :=
    mkComponent (mkState (Fin 1) (Some (fin_size 100 50))
                         (Some (fin_size 300 60)))
                (Some (mkRect (Fin 0) (Fin 0))) in
  scaled_height (getScaledDimensions this) === Fin 60
  /\ scaled_width (getScaledDimensions this) === Fin 100
  /\ ~ (scaled_height (getScaledDimensions this) === Fin 0
        /\ scaled_width (getScaledDimensions this) === Fin 0).
Proof.
  cbv zeta. split; [| split].
  - vm_compute. reflexivity.
  - vm_compute. reflexivity.
  - intros [H _]. vm_compute in H. discriminate H.
Qed.


(** The cross-dimension width at work: a current image wider than the
    previous one does not widen the box. *)
Example getScaledDimensions_cross_dimension :
  let this :=
    mkComponent (mkState (Fin 1) (Some (fin_size 100 50))
                         (Some (fin_size 300 60)))
                (Some (mkRect (Fin 1000) (Fin 1000))) in
  scaled_width (getScaledDimensions this) === Fin 100
  /\ scaled_height (getScaledDimensions this) === Fin 60.
Proof.
  cbv zeta. split; vm_compute; reflexivity.
Qed.

(** *** The interaction value *)


(** *** Image sizes not yet loaded *)

Lemma fold_handle_previous_none (evs : list event) :
  forall this : ModifiedImageDiff,
    previousImageSize (state this) = None ->
    (forall w h, ~ In (PreviousImageLoad w h) evs) ->
    previousImageSize (state (fold_left handle evs this)) = None.
Proof.
  induction evs as [| e evs IH]; intros this Hthis Hevs; cbn [fold_left].
  - exact Hthis.
  - apply IH.
    + destruct e as [s | w h | w h | c]; cbn [handle]; try exact Hthis.
      exfalso. apply (Hevs w h). left. reflexivity.
    + intros w h Hin. apply (Hevs w h). right. exact Hin.
Qed.

Lemma fold_handle_current_none (evs : list event) :
  forall this : ModifiedImageDiff,
    currentImageSize (state this) = None ->
    (forall w h, ~ In (CurrentImageLoad w h) evs) ->
    currentImageSize (state (fold_left handle evs this)) = None.
Proof.
  induction evs as [| e evs IH]; intros this Hthis Hevs; cbn [fold_left].
  - exact Hthis.
  - apply IH.
    + destruct e as [s | w h | w h | c]; cbn [handle]; try exact Hthis.
      exfalso. apply (Hevs w h). left. reflexivity.
    + intros w h Hin. apply (Hevs w h). right. exact Hin.
Qed.

Lemma getScaledDimensions_unloaded (this : ModifiedImageDiff) :
  previousImageSize (state this) = None
  \/ currentImageSize (state this) = None ->
  scaled_height (getScaledDimensions this) = zero
  /\ scaled_width (getScaledDimensions this) = zero.
Proof.
  unfold getScaledDimensions.
  intros [H | H]; rewrite H.
  - split; reflexivity.
  - destruct (previousImageSize (state this)); split; reflexivity.
Qed.

Lemma handle_previous_other (this : ModifiedImageDiff) (e : event) :
  (forall w h, e <> PreviousImageLoad w h) ->
  previousImageSize (state (handle this e)) = previousImageSize (state this).
Proof.
  intros H. destruct e as [s | w h | w h | c]; try reflexivity.
  exfalso. apply (H w h). reflexivity.
Qed.

Lemma handle_current_other (this : ModifiedImageDiff) (e : event) :
  (forall w h, e <> CurrentImageLoad w h) ->
  currentImageSize (state (handle this e)) = currentImageSize (state this).
Proof.
  intros H. destruct e as [s | w h | w h | c]; try reflexivity.
  exfalso. apply (H w h). reflexivity.
Qed.

(** C10. While one of the two image sizes is still null the layout height
    and width are 0, whatever the container measures.  Both sizes start
    null and each is changed by its own load event only, so this is the
    case in every state reached without a load event of one of the two
    images. *)
Theorem getScaledDimensions_before_load
  (this : ModifiedImageDiff) (evs : list event) :
  (previousImageSize (state this) = None
   \/ currentImageSize (state this) = None ->
   scaled_height (getScaledDimensions this) = zero
   /\ scaled_width (getScaledDimensions this) = zero)
  /\ (previousImageSize (state constructor) = None
      /\ currentImageSize (state constructor) = None)
  /\ (forall e,
        (forall w h, e <> PreviousImageLoad w h) ->
        previousImageSize (state (handle this e))
        = previousImageSize (state this))
  /\ (forall e,
        (forall w h, e <> CurrentImageLoad w h) ->
        currentImageSize (state (handle this e))
        = currentImageSize (state this))
  /\ ((forall w h, ~ In (PreviousImageLoad w h) evs)
      \/ (forall w h, ~ In (CurrentImageLoad w h) evs) ->
      scaled_height (getScaledDimensions (run evs)) = zero
      /\ scaled_width (getScaledDimensions (run evs)) = zero).
Proof.
  split; [apply getScaledDimensions_unloaded |].
  split; [split; reflexivity |].
  split; [intros e; apply handle_previous_other |].
  split; [intros e; apply handle_current_other |].
  intros [H | H]; apply getScaledDimensions_unloaded.
  - left. unfold run. apply fold_handle_previous_none; [reflexivity | exact H].
  - right. unfold run. apply fold_handle_current_none; [reflexivity | exact H].
Qed.

Lemma getScaledDimensions_before_load_witness :
  let evs := [ContainerRef (Some (mkRect (Fin 620) (Fin 300)));
              PreviousImageLoad (Fin 1000) (Fin 500);
              ValueChange "0.5"] in
  scaled_height (getScaledDimensions (run evs)) = zero
  /\ scaled_width (getScaledDimensions (run evs)) = zero.
Proof.
  intros evs.
  apply (getScaledDimensions_before_load (run evs) evs).
  right. intros w h [H | [H | [H | []]]]; discriminate H.
Defined.

(** * Further properties of the fitting calculator *)

Lemma Qdiv_le_1 (x u : Q) : 0 < u -> x <= u -> x / u <= 1.
Proof. intros Hu Hx. apply Qle_shift_div_r; lra. Qed.

(** [x == Qmax 1 (Qmax a b)], by cases on the two maxima. *)
Ltac solve_Qmax3 a b :=
  let H1 := fresh in let E1 := fresh in
  let H2 := fresh in let E2 := fresh in
  destruct (Q.max_spec a b) as [[H1 E1] | [H1 E1]];
  destruct (Q.max_spec 1 (Qmax a b)) as [[H2 E2] | [H2 E2]];
  rewrite E2; rewrite ?E1 in *; lra.

(** With a positive usable area [ratio] is the largest of 1 and the two
    quotients, whatever the image. *)
Lemma ratio_positive_usable (w h cw ch : Q) :
  0 < cw - 20 -> 0 < ch - 20 - 60 ->
  exists r : Q,
    ratio (fin_size w h) (fin_size cw ch) = Fin r
    /\ r == Qmax 1 (Qmax (w / (cw - 20)) (h / (ch - 20 - 60))).
Proof.
  intros Huw Huh.
  pose proof (Qdiv_le_1 w _ Huw) as Fw.
  pose proof (Qdiv_le_1 h _ Huh) as Fh.
  unfold ratio.
  rewrite widthRatio_axis, heightRatio_axis.
  rewrite containerWidth_fin, containerHeight_fin.
  cbn [width height fin_size].
  destruct (axisRatio_view (cw - 20) w) as [Hw | _ Hw Hqw | Hw _ | Hw _ _];
    try lra;
    destruct (axisRatio_view (ch - 20 - 60) h) as [Hh | _ Hh Hqh | Hh _ | Hh _ _];
    try lra;
    try specialize (Fw Hw); try specialize (Fh Hh);
    cbn [ltb max one]; case_Qltb;
    (eexists; split; [reflexivity |]);
    solve_Qmax3 (w / (cw - 20)) (h / (ch - 20 - 60)).
Qed.

(** X1. An image of non-negative size is never scaled up: each output
    dimension lies between 0 and the input dimension, for any container. *)
Theorem getFittingSize_never_upscales (w h cw ch : Q) :
  0 <= w -> 0 <= h ->
  exists ow oh : Q,
    getFittingSize (fin_size w h) (fin_size cw ch) = fin_size ow oh
    /\ 0 <= ow /\ ow <= w /\ 0 <= oh /\ oh <= h.
Proof.
  intros Hw Hh. unfold getFittingSize.
  destruct (ratio_fin_view w h cw ch) as [_ | r Hr _ _ _ _].
  - exists 0, 0. cbn [width height fin_size div]. repeat split; lra.
  - exists (w / r), (h / r). cbn [width height fin_size].
    rewrite !div_Fin by lra.
    split; [reflexivity |].
    repeat split.
    + apply Qle_shift_div_l; lra.
    + apply Qle_shift_div_r; [lra | nra].
    + apply Qle_shift_div_l; lra.
    + apply Qle_shift_div_r; [lra | nra].
Qed.

Lemma getFittingSize_never_upscales_witness :
  exists ow oh : Q,
    getFittingSize (fin_size 1000 500) (fin_size 620 300) = fin_size ow oh
    /\ 0 <= ow /\ ow <= 1000 /\ 0 <= oh /\ oh <= 500.
Proof.
  apply (getFittingSize_never_upscales 1000 500 620 300); discriminate.
Defined.

(** X5. A container smaller than the reserved space in both directions
    (less than 20 wide and less than 80 high) scales nothing: every image,
    of finite size or not, is returned as it is. *)
Theorem getFittingSize_container_below_reserved
  (imageSize : IImageSize) (cw ch : Q) :
  cw < 20 -> ch < 80 ->
  ratio imageSize (fin_size cw ch) = Fin 1
  /\ size_eq (getFittingSize imageSize (fin_size cw ch)) imageSize.
Proof.
  intros Hcw Hch.
  assert (R : ratio imageSize (fin_size cw ch) = one).
  { apply ratio_one.
    - rewrite widthRatio_axis, containerWidth_fin.
      destruct imageSize as [[x| | |] hh]; cbn [width]; try reflexivity.
      + apply axisRatio_le_one. lra.
      + unfold axisRatio. cbn [ltb div].
        rewrite Qltb_true by lra. reflexivity.
    - left. rewrite heightRatio_axis, containerHeight_fin.
      destruct imageSize as [ww [x| | |]]; cbn [height]; try reflexivity.
      + apply axisRatio_le_one. lra.
      + unfold axisRatio. cbn [ltb div].
        rewrite Qltb_true by lra. reflexivity. }
  split; [exact R |]. apply getFittingSize_ratio_one. exact R.
Qed.

Lemma getFittingSize_container_below_reserved_witness :
  size_eq (getFittingSize (fin_size 1000 500) (fin_size 19 79))
          (fin_size 1000 500).
Proof.
  apply (getFittingSize_container_below_reserved (fin_size 1000 500) 19 79);
    reflexivity.
Defined.

Lemma Qdiv_le_denominator (x u u' : Q) :
  0 <= x -> 0 < u -> u <= u' -> x / u' <= x / u.
Proof.
  intros Hx Hu Huu.
  apply Qle_shift_div_r; [lra |].
  assert (E : x / u * u == x) by (field; lra).
  assert (P : 0 <= x / u) by (apply Qle_shift_div_l; lra).
  set (q := x / u) in *. nra.
Qed.

(** X6. With a positive usable area, a container at least as wide and as
    high never gives a smaller output for the same image. *)
Theorem getFittingSize_monotone_container (w h cw ch cw' ch' : Q) :
  0 <= w -> 0 <= h ->
  0 < cw - 20 -> 0 < ch - 20 - 60 ->
  cw <= cw' -> ch <= ch' ->
  exists ow oh ow' oh' : Q,
    getFittingSize (fin_size w h) (fin_size cw ch) = fin_size ow oh
    /\ getFittingSize (fin_size w h) (fin_size cw' ch') = fin_size ow' oh'
    /\ ow <= ow' /\ oh <= oh'.
Proof.
  intros Hw Hh Huw Huh Hcw Hch.
  destruct (ratio_positive_usable w h cw ch Huw Huh) as (r & R & Er).
  destruct (ratio_positive_usable w h cw' ch') as (r' & R' & Er'); try lra.
  assert (Hr1 : 1 <= r) by (rewrite Er; apply Q.le_max_l).
  assert (Hr1' : 1 <= r') by (rewrite Er'; apply Q.le_max_l).
  assert (Hrr : r' <= r).
  { rewrite Er, Er'. apply Q.max_le_compat_l. apply Q.max_le_compat.
    - apply Qdiv_le_denominator; lra.
    - apply Qdiv_le_denominator; lra. }
  exists (w / r), (h / r), (w / r'), (h / r').
  split; [apply getFittingSize_fin_ratio; [exact R | lra] |].
  split; [apply getFittingSize_fin_ratio; [exact R' | lra] |].
  split; apply Qdiv_le_denominator; lra.
Qed.

Lemma getFittingSize_monotone_container_witness :
  exists ow oh ow' oh' : Q,
    getFittingSize (fin_size 1000 500) (fin_size 620 300) = fin_size ow oh
    /\ getFittingSize (fin_size 1000 500) (fin_size 820 300)
       = fin_size ow' oh'
    /\ ow <= ow' /\ oh <= oh'.
Proof.
  apply (getFittingSize_monotone_container 1000 500 620 300 820 300);
    reflexivity || discriminate.
Defined.

(** X7. The ratio the image is divided by is never below 1 and never
    negative: it is a finite number from 1 up, plus infinity, or not a
    number, and on finite sizes it is a number. *)
Theorem ratio_at_least_one (imageSize containerSize : IImageSize) :
  (ratio imageSize containerSize = NaN
   \/ ratio imageSize containerSize = PInf
   \/ exists r : Q, ratio imageSize containerSize = Fin r /\ 1 <= r)
  /\ (forall w h cw ch : Q,
        ratio (fin_size w h) (fin_size cw ch) <> NaN).
Proof.
  split.
  - pose proof (ratio_cases (widthRatio imageSize containerSize)
                            (heightRatio imageSize containerSize)) as H.
    unfold ratio. cbv zeta.
    destruct (if ltb _ _ then _ else _) as [r| | |].
    + right. right. exists r. split; [reflexivity | apply H].
    + right. left. reflexivity.
    + contradiction.
    + left. reflexivity.
  - intros w h cw ch.
    destruct (ratio_fin_view w h cw ch); discriminate.
Qed.

(** * Further properties of the component *)

(** X8. Events of different kinds commute: the two image loads, a value
    change and a container change can arrive in any order. *)
Theorem handle_commute (this : ModifiedImageDiff) (e1 e2 : event) :
  same_kind e1 e2 = false ->
  handle (handle this e1) e2 = handle (handle this e2) e1.
Proof.
  destruct e1, e2; cbn [same_kind]; intros H;
    try discriminate H; reflexivity.
Qed.

Lemma handle_commute_witness :
  handle (handle constructor (PreviousImageLoad (Fin 100) (Fin 50)))
         (CurrentImageLoad (Fin 300) (Fin 60))
  = handle (handle constructor (CurrentImageLoad (Fin 300) (Fin 60)))
           (PreviousImageLoad (Fin 100) (Fin 50)).
Proof.
  apply (handle_commute constructor
           (PreviousImageLoad (Fin 100) (Fin 50))
           (CurrentImageLoad (Fin 300) (Fin 60))).
  reflexivity.
Defined.

(** X9. Of two events of the same kind the later one wins: the earlier one
    leaves no trace in the component. *)
Theorem handle_override (this : ModifiedImageDiff) (e1 e2 : event) :
  same_kind e1 e2 = true ->
  handle (handle this e1) e2 = handle this e2.
Proof.
  destruct e1, e2; cbn [same_kind]; intros H;
    try discriminate H; reflexivity.
Qed.

Lemma handle_override_witness :
  handle (handle constructor (PreviousImageLoad (Fin 100) (Fin 50)))
         (PreviousImageLoad (Fin 300) (Fin 60))
  = handle constructor (PreviousImageLoad (Fin 300) (Fin 60)).
Proof.
  apply (handle_override constructor
           (PreviousImageLoad (Fin 100) (Fin 50))
           (PreviousImageLoad (Fin 300) (Fin 60))).
  reflexivity.
Defined.

Lemma fold_handle_previous_some (evs : list event) :
  forall this : ModifiedImageDiff,
    previousImageSize (state this) <> None
    \/ (exists w h, In (PreviousImageLoad w h) evs) ->
    previousImageSize (state (fold_left handle evs this)) <> None.
Proof.
  induction evs as [| e evs IH]; intros this H; cbn [fold_left].
  - destruct H as [H | (w & h & [])]. exact H.
  - apply IH. destruct H as [H | (w & h & [-> | Hin])].
    + left. destruct e; try exact H. cbn. intros E; discriminate E.
    + left. cbn. intros E; discriminate E.
    + right. exists w, h. exact Hin.
Qed.

Lemma fold_handle_current_some (evs : list event) :
  forall this : ModifiedImageDiff,
    currentImageSize (state this) <> None
    \/ (exists w h, In (CurrentImageLoad w h) evs) ->
    currentImageSize (state (fold_left handle evs this)) <> None.
Proof.
  induction evs as [| e evs IH]; intros this H; cbn [fold_left].
  - destruct H as [H | (w & h & [])]. exact H.
  - apply IH. destruct H as [H | (w & h & [-> | Hin])].
    + left. destruct e; try exact H. cbn. intros E; discriminate E.
    + left. cbn. intros E; discriminate E.
    + right. exists w, h. exact Hin.
Qed.

Lemma scaled_container_measured (this : ModifiedImageDiff) :
  scaled_containerWidth (getScaledDimensions this)
  = measured (container this) rect_width
  /\ scaled_containerHeight (getScaledDimensions this)
    = measured (container this) rect_height.
Proof.
  unfold getScaledDimensions.
  destruct (previousImageSize (state this)),
    (currentImageSize (state this)); split; reflexivity.
Qed.

(** X10. The measured container sides are never [NaN]: an unmounted
    container, a zero side and a [NaN] side all read as the number 0, and
    any other side, width or height, reads as itself. *)
Theorem getScaledDimensions_container_sides (this : ModifiedImageDiff) :
  scaled_containerWidth (getScaledDimensions this) <> NaN
  /\ scaled_containerHeight (getScaledDimensions this) <> NaN
  /\ (container this = None ->
      scaled_containerWidth (getScaledDimensions this) = Fin 0
      /\ scaled_containerHeight (getScaledDimensions this) = Fin 0)
  /\ (forall r, container this = Some r ->
      (truthy (rect_width r) = true ->
       scaled_containerWidth (getScaledDimensions this) = rect_width r)
      /\ (truthy (rect_width r) = false ->
          scaled_containerWidth (getScaledDimensions this) = Fin 0)
      /\ (truthy (rect_height r) = true ->
          scaled_containerHeight (getScaledDimensions this) = rect_height r)
      /\ (truthy (rect_height r) = false ->
          scaled_containerHeight (getScaledDimensions this) = Fin 0)).
Proof.
  assert (M : forall x : number, or x zero <> NaN).
  { intros [q| | |]; unfold or; cbn [truthy]; try discriminate.
    destruct (Qis0 q); cbn [negb]; discriminate. }
  destruct (scaled_container_measured this) as [-> ->].
  destruct (container this) as [[rw rh] |]; cbn [measured rect_width rect_height].
  - split; [apply M |]. split; [apply M |]. split; [discriminate |].
    intros r H. injection H as <-. cbn [rect_width rect_height]. unfold or.
    split; [intros ->; reflexivity |].
    split; [intros ->; reflexivity |].
    split; intros ->; reflexivity.
  - repeat split; try discriminate.
Qed.

Lemma getScaledDimensions_container_sides_witness :
  let this :=
    mkComponent (state constructor) (Some (mkRect (Fin 620) (Fin 300))) in
  scaled_containerWidth (getScaledDimensions this) = Fin 620
  /\ scaled_containerHeight (getScaledDimensions this) = Fin 300.
Proof.
  intros this.
  destruct (getScaledDimensions_container_sides this)
    as (_ & _ & _ & H).
  destruct (H (mkRect (Fin 620) (Fin 300)) eq_refl) as (Hw & _ & Hh & _).
  split; [apply Hw | apply Hh]; reflexivity.
Defined.

(** Every bound on the output of a fit of a finite image at once. *)
Lemma getFittingSize_fin_bounds (w h cw ch : Q) :
  exists ow oh : Q,
    getFittingSize (fin_size w h) (fin_size cw ch) = fin_size ow oh
    /\ (0 <= h -> 0 <= oh /\ oh <= h)
    /\ (0 <= w -> 0 <= ow /\ ow <= w)
    /\ (0 <= cw - 20 -> ow <= cw - 20)
    /\ (0 <= ch - 20 - 60 -> oh <= ch - 20 - 60).
Proof.
  unfold getFittingSize.
  destruct (ratio_fin_view w h cw ch) as [_ | r Hr Hw Hh Hzw Hzh].
  - exists 0, 0. cbn [width height fin_size div]. repeat split; lra.
  - exists (w / r), (h / r). cbn [width height fin_size].
    rewrite !div_Fin by lra.
    split; [reflexivity |].
    pose proof (Qdiv_settled w (cw - 20) r Hr Hw Hzw) as Sw.
    pose proof (Qdiv_settled h (ch - 20 - 60) r Hr Hh Hzh) as Sh.
    repeat split.
    + apply Qle_shift_div_l; lra.
    + apply Qle_shift_div_r; [lra | nra].
    + apply Qle_shift_div_l; lra.
    + apply Qle_shift_div_r; [lra | nra].
    + intros Hu. destruct (Qlt_le_dec (cw - 20) (w / r)); [| assumption].
      exfalso. apply Sw. split; assumption.
    + intros Hu. destruct (Qlt_le_dec (ch - 20 - 60) (h / r)); [| assumption].
      exfalso. apply Sh. split; assumption.
Qed.

Lemma scaled_loaded
  (v : number) (previous current : IImageSize) (c : option DOMRect) :
  let this := mkComponent (mkState v (Some previous) (Some current)) c in
  let containerSize :=
    mkSize (measured c rect_width) (measured c rect_height) in
  scaled_height (getScaledDimensions this)
  = max (height (getFittingSize previous containerSize))
        (height (getFittingSize current containerSize))
  /\ scaled_width (getScaledDimensions this)
     = max (width (getFittingSize previous containerSize))
           (height (getFittingSize current containerSize)).
Proof.
  cbv zeta. split; reflexivity.
Qed.

Lemma max_Fin_cases (a b : Q) :
  exists m : Q, max (Fin a) (Fin b) = Fin m /\ m == Qmax a b.
Proof.
  cbn [max]. destruct (Qltb_spec a b).
  - exists b. split; [reflexivity |]. symmetry. apply Q.max_r. lra.
  - exists a. split; [reflexivity |]. symmetry. apply Q.max_l. assumption.
Qed.

(** X11. With both images loaded, of finite non-negative natural sizes, in
    a container measured with finite sides: the layout height is between 0
    and the larger natural height, and the layout width between 0 and the
    larger of the previous natural width and the current natural height. *)
Theorem getScaledDimensions_bounds
  (v : number) (pw ph cw ch W H : Q) (c : option DOMRect) :
  measured c rect_width = Fin W ->
  measured c rect_height = Fin H ->
  0 <= pw -> 0 <= ph -> 0 <= cw -> 0 <= ch ->
  let this :=
    mkComponent (mkState v (Some (fin_size pw ph)) (Some (fin_size cw ch))) c in
  exists sh sw : Q,
    scaled_height (getScaledDimensions this) = Fin sh
    /\ scaled_width (getScaledDimensions this) = Fin sw
    /\ 0 <= sh /\ sh <= Qmax ph ch
    /\ 0 <= sw /\ sw <= Qmax pw ch.
Proof.
  intros HW HH Hpw Hph Hcw Hch this.
  destruct (scaled_loaded v (fin_size pw ph) (fin_size cw ch) c) as [Eh Ew].
  fold this in Eh, Ew. rewrite Eh, Ew, HW, HH. clear Eh Ew.
  change (mkSize (Fin W) (Fin H)) with (fin_size W H).
  destruct (getFittingSize_fin_bounds pw ph W H)
    as (ow1 & oh1 & E1 & B1h & B1w & _ & _).
  destruct (getFittingSize_fin_bounds cw ch W H)
    as (ow2 & oh2 & E2 & B2h & _ & _ & _).
  rewrite E1, E2. cbn [width height fin_size].
  destruct (max_Fin_cases oh1 oh2) as (sh & -> & Esh).
  destruct (max_Fin_cases ow1 oh2) as (sw & -> & Esw).
  exists sh, sw. split; [reflexivity |]. split; [reflexivity |].
  specialize (B1h Hph). specialize (B1w Hpw). specialize (B2h Hch).
  pose proof (Q.le_max_l ph ch). pose proof (Q.le_max_r ph ch).
  pose proof (Q.le_max_l pw ch). pose proof (Q.le_max_r pw ch).
  assert (Nh : 0 <= Qmax oh1 oh2).
  { apply Qle_trans with oh1; [lra | apply Q.le_max_l]. }
  assert (Nw : 0 <= Qmax ow1 oh2).
  { apply Qle_trans with ow1; [lra | apply Q.le_max_l]. }
  split; [rewrite Esh; exact Nh |].
  split; [rewrite Esh; apply Q.max_lub; lra |].
  split; [rewrite Esw; exact Nw |].
  rewrite Esw. apply Q.max_lub; lra.
Qed.

Lemma getScaledDimensions_bounds_witness :
  let this :=
    mkComponent (mkState (Fin 1) (Some (fin_size 1000 500))
                         (Some (fin_size 300 440)))
                (Some (mkRect (Fin 620) (Fin 300))) in
  exists sh sw : Q,
    scaled_height (getScaledDimensions this) = Fin sh
    /\ scaled_width (getScaledDimensions this) = Fin sw
    /\ 0 <= sh /\ sh <= Qmax 500 440
    /\ 0 <= sw /\ sw <= Qmax 1000 440.
Proof.
  apply (getScaledDimensions_bounds (Fin 1) 1000 500 300 440 620 300
           (Some (mkRect (Fin 620) (Fin 300))));
    reflexivity || discriminate.
Defined.

(** * Properties of the render functions *)

Lemma render2Up_TypeError (this : ModifiedImageDiff) (height width wc : number) :
  render2Up this height width wc = TypeError
  <-> previousImageSize (state this) = None
      \/ currentImageSize (state this) = None.
Proof.
  unfold render2Up.
  destruct (previousImageSize (state this)) as [p |],
    (currentImageSize (state this)) as [c |];
    cbn [width_of height_of result_bind]; split;
    try discriminate; auto.
  intros [H | H]; discriminate H.
Qed.

Lemma render_raises (this : ModifiedImageDiff) (diffType : ImageDiffType) :
  render this diffType = TypeError
  <-> diffType = TwoUp
      /\ (previousImageSize (state this) = None
          \/ currentImageSize (state this) = None).
Proof.
  unfold render.
  destruct diffType; cbn [ImageDiffType_eqb and_then result_bind];
    try (split; [discriminate | intros [H _]; discriminate H]).
  destruct (render2Up_TypeError this
              (scaled_height (getScaledDimensions this))
              (scaled_width (getScaledDimensions this))
              (scaled_containerWidth (getScaledDimensions this))) as [H1 H2].
  destruct (render2Up this _ _ _) as [v |]; cbn [result_bind].
  - split; [discriminate |].
    intros [_ H]. specialize (H2 H). discriminate H2.
  - split; [| reflexivity]. intros _. split; [reflexivity |].
    apply H1. reflexivity.
Qed.

(** X12. Rendering raises exactly in the 2-up layout with an image size
    still null, where the footer reads the width of a null size; the swipe,
    fade and difference layouts render in every state. *)
Theorem render_TypeError (this : ModifiedImageDiff) (diffType : ImageDiffType) :
  render this diffType = TypeError
  <-> diffType = TwoUp
      /\ (previousImageSize (state this) = None
          \/ currentImageSize (state this) = None).
Proof.
  exact (render_raises this diffType).
Qed.

(** X13. From the constructor, the 2-up layout raises on every run of
    events that lacks a load event of one of the two images, the first
    render included, and renders once both images have loaded. *)
Theorem render_twoUp_runs (evs : list event) :
  ((forall w h, ~ In (PreviousImageLoad w h) evs)
   \/ (forall w h, ~ In (CurrentImageLoad w h) evs) ->
   render (run evs) TwoUp = TypeError)
  /\ ((exists w h, In (PreviousImageLoad w h) evs) ->
      (exists w h, In (CurrentImageLoad w h) evs) ->
      exists v, render (run evs) TwoUp = Ok v).
Proof.
  split.
  - intros H. apply render_raises. split; [reflexivity |].
    destruct H as [H | H]; [left | right]; unfold run.
    + apply fold_handle_previous_none; [reflexivity | exact H].
    + apply fold_handle_current_none; [reflexivity | exact H].
  - intros Hp Hc.
    destruct (render (run evs) TwoUp) as [v |] eqn:E; [exists v; reflexivity |].
    exfalso. apply render_raises in E. destruct E as [_ [E | E]].
    + revert E. unfold run. apply fold_handle_previous_some. right. exact Hp.
    + revert E. unfold run. apply fold_handle_current_some. right. exact Hc.
Qed.

Lemma render_twoUp_runs_witness :
  render (run []) TwoUp = TypeError
  /\ exists v,
       render (run [PreviousImageLoad (Fin 100) (Fin 50);
                    CurrentImageLoad (Fin 300) (Fin 60)]) TwoUp = Ok v.
Proof.
  split.
  - apply (render_twoUp_runs []). left. intros w h [].
  - apply (render_twoUp_runs [PreviousImageLoad (Fin 100) (Fin 50);
                              CurrentImageLoad (Fin 300) (Fin 60)]).
    + exists (Fin 100), (Fin 50). left. reflexivity.
    + exists (Fin 300), (Fin 60). right. left. reflexivity.
Defined.

(** X14. A render that succeeds draws exactly one layout, the one of the
    diff type, and selects the tab of the diff type. *)
Theorem render_one_layout
  (this : ModifiedImageDiff) (diffType : ImageDiffType) (v : View) :
  render this diffType = Ok v ->
  tabBar_selectedIndex v = diffType
  /\ (view_twoUp v <> None <-> diffType = TwoUp)
  /\ (view_swipe v <> None <-> diffType = Swipe)
  /\ (view_fade v <> None <-> diffType = OnionSkin)
  /\ (view_difference v <> None <-> diffType = Difference).
Proof.
  unfold render.
  destruct diffType; cbn [ImageDiffType_eqb and_then result_bind];
    try destruct (render2Up this _ _ _) as [v2 |]; cbn [result_bind];
    intros E; try discriminate E; injection E as <-;
    cbn [tabBar_selectedIndex view_twoUp view_swipe view_fade view_difference];
    repeat split; try discriminate; try reflexivity;
    intros H; try discriminate H; exfalso; apply H; reflexivity.
Qed.

Lemma render_one_layout_witness :
  exists v,
    render constructor Swipe = Ok v
    /\ tabBar_selectedIndex v = Swipe
    /\ (view_twoUp v <> None <-> Swipe = TwoUp)
    /\ (view_swipe v <> None <-> Swipe = Swipe)
    /\ (view_fade v <> None <-> Swipe = OnionSkin)
    /\ (view_difference v <> None <-> Swipe = Difference).
Proof.
  destruct (render constructor Swipe) as [v |] eqn:E.
  - exists v. split; [reflexivity |].
    apply (render_one_layout constructor Swipe v). exact E.
  - vm_compute in E. discriminate E.
Defined.







(** * Binary64 rounding *)

(** powers of two *)
Lemma pow2_pos (e : Z) : 0 < pow2 e.
Proof. apply Qpower_0_lt. reflexivity. Qed.

Lemma pow2_plus (a b : Z) : pow2 (a + b) == pow2 a * pow2 b.
Proof. apply Qpower_plus. discriminate. Qed.

Lemma pow2_succ (a : Z) : pow2 (a + 1) == 2 * pow2 a.
Proof. rewrite pow2_plus. change (pow2 1) with 2. ring. Qed.

Lemma pow2_le (a b : Z) : (a <= b)%Z -> pow2 a <= pow2 b.
Proof. intros H. apply Qpower_le_compat_l; [exact H | discriminate]. Qed.

Lemma pow2_lt (a b : Z) : (a < b)%Z -> pow2 a < pow2 b.
Proof. intros H. apply Qpower_lt_compat_l; [exact H | reflexivity]. Qed.

Lemma pow2_lt_inv (a b : Z) : pow2 a < pow2 b -> (a < b)%Z.
Proof. intros H. apply (Qpower_lt_compat_l_inv 2); [exact H | reflexivity]. Qed.

Lemma pow2_inject (n : Z) : (0 <= n)%Z -> inject_Z (2 ^ n) == pow2 n.
Proof. intros H. unfold pow2. rewrite Zpower_Qpower by exact H. reflexivity. Qed.

Lemma Zlog2_Q (n : Z) :
  (0 < n)%Z -> pow2 (Z.log2 n) <= inject_Z n /\ inject_Z n < pow2 (Z.log2 n + 1).
Proof.
  intros H. destruct (Z.log2_spec n H) as [H1 H2].
  pose proof (Z.log2_nonneg n) as Hl.
  split.
  - rewrite <- pow2_inject by exact Hl. rewrite <- Zle_Qle. exact H1.
  - rewrite <- pow2_inject by lia. rewrite <- Zlt_Qlt.
    replace (Z.log2 n + 1)%Z with (Z.succ (Z.log2 n)) by lia. exact H2.
Qed.

Lemma Qlog2_spec (q : Q) :
  0 < q -> pow2 (Qlog2 q) <= q /\ q < pow2 (Qlog2 q + 1).
Proof.
  intros Hq. unfold Qlog2.
  destruct q as [a b]. cbn [Qnum Qden].
  assert (Ha : (0 < a)%Z).
  { unfold Qlt in Hq. cbn in Hq. lia. }
  destruct (Zlog2_Q a Ha) as [A1 A2].
  destruct (Zlog2_Q (Zpos b) eq_refl) as [B1 B2].
  set (la := Z.log2 a) in *. set (lb := Z.log2 (Zpos b)) in *.
  assert (E : a # b == inject_Z a / inject_Z (Zpos b)) by apply Qmake_Qdiv.
  assert (Eq' : (a # b) * inject_Z (Zpos b) == inject_Z a).
  { rewrite E. field. intros H. discriminate H. }
  set (q := a # b) in *. set (A := inject_Z a) in *.
  set (B := inject_Z (Zpos b)) in *.
  assert (HB : 0 < B) by reflexivity.
  assert (P : pow2 la == pow2 (la - lb) * pow2 lb).
  { rewrite <- pow2_plus. replace (la - lb + lb)%Z with la by lia. reflexivity. }
  rewrite pow2_succ in A2, B2.
  pose proof (pow2_pos (la - lb)) as Hx. pose proof (pow2_pos lb) as Hy.
  destruct (Qltb_spec q (pow2 (la - lb))) as [Hlt | Hge].
  - replace (la - lb - 1 + 1)%Z with (la - lb)%Z by lia.
    split; [| exact Hlt].
    assert (P2 : pow2 (la - lb) == 2 * pow2 (la - lb - 1)).
    { rewrite <- pow2_succ. replace (la - lb - 1 + 1)%Z with (la - lb)%Z by lia.
      reflexivity. }
    set (x := pow2 (la - lb)) in *. set (y := pow2 lb) in *.
    set (z := pow2 (la - lb - 1)) in *. set (w := pow2 la) in *.
    nra.
  - split; [exact Hge |].
    rewrite pow2_succ.
    set (x := pow2 (la - lb)) in *. set (y := pow2 lb) in *.
    set (w := pow2 la) in *.
    nra.
Qed.

Lemma Qlog2_unique (q : Q) (k : Z) :
  pow2 k <= q -> q < pow2 (k + 1) -> Qlog2 q = k.
Proof.
  intros H1 H2.
  assert (Hq : 0 < q) by (pose proof (pow2_pos k); lra).
  destruct (Qlog2_spec q Hq) as [S1 S2].
  assert (K1 : (k < Qlog2 q + 1)%Z) by (apply pow2_lt_inv; lra).
  assert (K2 : (Qlog2 q < k + 1)%Z) by (apply pow2_lt_inv; lra).
  lia.
Qed.

Lemma Qlog2_mono (p q : Q) : 0 < p -> p <= q -> (Qlog2 p <= Qlog2 q)%Z.
Proof.
  intros Hp Hpq.
  destruct (Qlog2_spec p Hp) as [P1 P2].
  destruct (Qlog2_spec q) as [Q1 Q2]; [lra |].
  assert (K : (Qlog2 p < Qlog2 q + 1)%Z) by (apply pow2_lt_inv; lra).
  lia.
Qed.

Lemma Qlog2_comp (p q : Q) : 0 < p -> p == q -> Qlog2 p = Qlog2 q.
Proof.
  intros Hp E. destruct (Qlog2_spec q) as [Q1 Q2]; [lra |].
  apply Qlog2_unique; lra.
Qed.

(** nearest integer, ties to even *)
Lemma round_even_err (t : Q) :
  t - (1 # 2) <= inject_Z (round_even t) /\ inject_Z (round_even t) <= t + (1 # 2).
Proof.
  unfold round_even.
  pose proof (Qfloor_le t) as H1. pose proof (Qlt_floor t) as H2.
  rewrite inject_Z_plus in H2. change (inject_Z 1) with 1 in H2.
  destruct (Qcompare_spec (t - inject_Z (Qfloor t)) (1 # 2)) as [E | L | G].
  - destruct (Z.even (Qfloor t)); [lra |].
    rewrite inject_Z_plus. change (inject_Z 1) with 1. lra.
  - lra.
  - rewrite inject_Z_plus. change (inject_Z 1) with 1. lra.
Qed.

Lemma round_even_comp (s t : Q) : s == t -> round_even s = round_even t.
Proof.
  intros E. unfold round_even.
  assert (F : Qfloor s = Qfloor t) by (rewrite E; reflexivity).
  rewrite F.
  assert (C : Qcompare (s - inject_Z (Qfloor t)) (1 # 2)
              = Qcompare (t - inject_Z (Qfloor t)) (1 # 2)).
  { rewrite E. reflexivity. }
  rewrite C. reflexivity.
Qed.

Lemma round_even_Z (n : Z) : round_even (inject_Z n) = n.
Proof.
  unfold round_even. rewrite Qfloor_Z.
  destruct (Qcompare_spec (inject_Z n - inject_Z n) (1 # 2)) as [E | L | G];
    try reflexivity; exfalso; lra.
Qed.

Lemma round_even_mono (s t : Q) : s <= t -> (round_even s <= round_even t)%Z.
Proof.
  intros Hst.
  pose proof (Qfloor_resp_le s t Hst) as Hf.
  destruct (Z.eq_dec (Qfloor s) (Qfloor t)) as [E | N].
  - unfold round_even. rewrite E.
    destruct (Qcompare_spec (s - inject_Z (Qfloor t)) (1 # 2));
      destruct (Qcompare_spec (t - inject_Z (Qfloor t)) (1 # 2));
      try destruct (Z.even (Qfloor t)); try lia; exfalso; lra.
  - assert (Hlt : (Qfloor s + 1 <= Qfloor t)%Z) by lia.
    assert (A : (round_even s <= Qfloor s + 1)%Z).
    { unfold round_even. destruct (Qcompare _ _); try destruct (Z.even _); lia. }
    assert (B : (Qfloor t <= round_even t)%Z).
    { unfold round_even. destruct (Qcompare _ _); try destruct (Z.even _); lia. }
    lia.
Qed.

Lemma Qlog2_Qabs (q : Q) : 0 < q -> Qlog2 (Qabs q) = Qlog2 q.
Proof.
  intros H. destruct q as [a b]. unfold Qabs.
  assert (Ha : (0 < a)%Z) by (unfold Qlt in H; cbn in H; lia).
  rewrite Z.abs_eq by lia. reflexivity.
Qed.

Lemma normal_log2 (q : Q) :
  normal q -> (-1022 <= Qlog2 q <= 1022)%Z.
Proof.
  intros [H1 H2].
  assert (Hq : 0 < q) by (pose proof (pow2_pos (-1022)); lra).
  destruct (Qlog2_spec q Hq) as [S1 S2].
  assert (K1 : (-1022 < Qlog2 q + 1)%Z) by (apply pow2_lt_inv; lra).
  assert (K2 : ~ (1022 < Qlog2 q)%Z).
  { intros K. apply pow2_lt in K. lra. }
  lia.
Qed.

(** The scaled significand of a positive number lies in [2^52, 2^53). *)
Lemma significand_range (q : Q) :
  0 < q ->
  pow2 52 <= q / pow2 (Qlog2 q - 52) /\ q / pow2 (Qlog2 q - 52) < pow2 53.
Proof.
  intros Hq. destruct (Qlog2_spec q Hq) as [S1 S2].
  pose proof (pow2_pos (Qlog2 q - 52)) as He.
  assert (E1 : pow2 (Qlog2 q) == pow2 52 * pow2 (Qlog2 q - 52)).
  { rewrite <- pow2_plus. replace (52 + (Qlog2 q - 52))%Z with (Qlog2 q) by lia.
    reflexivity. }
  assert (E2 : pow2 (Qlog2 q + 1) == pow2 53 * pow2 (Qlog2 q - 52)).
  { rewrite <- pow2_plus.
    replace (53 + (Qlog2 q - 52))%Z with (Qlog2 q + 1)%Z by lia. reflexivity. }
  split.
  - apply Qle_shift_div_l; [exact He | lra].
  - apply Qlt_shift_div_r; [exact He | lra].
Qed.

Lemma rounded_binade (q : Q) :
  0 < q ->
  pow2 (Qlog2 q) <= rounded q /\ rounded q <= pow2 (Qlog2 q + 1).
Proof.
  intros Hq. unfold rounded.
  destruct (significand_range q Hq) as [T1 T2].
  set (e := (Qlog2 q - 52)%Z) in *. set (t := q / pow2 e) in *.
  pose proof (pow2_pos e) as He.
  assert (N1 : (2 ^ 52 <= round_even t)%Z).
  { rewrite <- (round_even_Z (2 ^ 52)). apply round_even_mono.
    rewrite pow2_inject by lia. exact T1. }
  assert (N2 : (round_even t <= 2 ^ 53)%Z).
  { rewrite <- (round_even_Z (2 ^ 53)). apply round_even_mono.
    rewrite pow2_inject by lia. lra. }
  rewrite Zle_Qle in N1, N2. rewrite pow2_inject in N1, N2 by lia.
  assert (E1 : pow2 (Qlog2 q) == pow2 52 * pow2 e).
  { rewrite <- pow2_plus. unfold e.
    replace (52 + (Qlog2 q - 52))%Z with (Qlog2 q) by lia. reflexivity. }
  assert (E2 : pow2 (Qlog2 q + 1) == pow2 53 * pow2 e).
  { rewrite <- pow2_plus. unfold e.
    replace (53 + (Qlog2 q - 52))%Z with (Qlog2 q + 1)%Z by lia. reflexivity. }
  rewrite E1, E2.
  set (n := inject_Z (round_even t)) in *.
  set (a := pow2 52) in *. set (b := pow2 53) in *. set (p := pow2 e) in *.
  split; nra.
Qed.

Lemma rounded_error (q : Q) :
  0 < q ->
  q * (1 - u64) <= rounded q /\ rounded q <= q * (1 + u64).
Proof.
  intros Hq. unfold rounded.
  destruct (Qlog2_spec q Hq) as [S1 _].
  set (e := (Qlog2 q - 52)%Z) in *.
  pose proof (pow2_pos e) as He.
  destruct (round_even_err (q / pow2 e)) as [R1 R2].
  assert (Et : q / pow2 e * pow2 e == q) by (field; lra).
  assert (E1 : pow2 (Qlog2 q) == pow2 53 * (pow2 e * (1 # 2))).
  { replace (Qlog2 q) with (53 + (e - 1))%Z by (unfold e; lia).
    rewrite pow2_plus.
    assert (Eh : pow2 e == 2 * pow2 (e - 1)).
    { rewrite <- pow2_succ. replace (e - 1 + 1)%Z with e by lia. reflexivity. }
    rewrite Eh. field. }
  assert (U : u64 * pow2 53 == 1).
  { unfold u64. rewrite <- pow2_plus. reflexivity. }
  set (t := q / pow2 e) in *. set (n := inject_Z (round_even t)) in *.
  set (p := pow2 e) in *. set (L := pow2 (Qlog2 q)) in *.
  set (c := pow2 53) in *.
  assert (Hu : 0 < u64) by apply pow2_pos.
  assert (Hp2 : p * (1 # 2) <= u64 * q).
  { assert (X : u64 * L == p * (1 # 2)) by (rewrite E1; nra).
    nra. }
  split; nra.
Qed.

Lemma round64_normal (q : Q) :
  normal q -> round64 q = Fin (rounded q).
Proof.
  intros Hn. pose proof (normal_log2 q Hn) as Hl. destruct Hn as [H1 H2].
  assert (Hq : 0 < q) by (pose proof (pow2_pos (-1022)); lra).
  unfold round64.
  destruct (Qis0_spec q) as [E | _]; [lra |].
  unfold ulp_exponent. rewrite Qlog2_Qabs by exact Hq.
  rewrite Z.max_l by lia. fold (rounded q).
  destruct (rounded_binade q Hq) as [B1 B2].
  assert (P : pow2 (Qlog2 q + 1) < pow2 1024) by (apply pow2_lt; lia).
  pose proof (pow2_pos (Qlog2 q)) as P0. pose proof (pow2_pos 1024) as P1.
  destruct (Qltb_spec (rounded q) (pow2 1024)); [| lra].
  destruct (Qltb_spec (- pow2 1024) (rounded q)); [reflexivity | lra].
Qed.

Lemma rounded_comp (p q : Q) : 0 < p -> p == q -> rounded p == rounded q.
Proof.
  intros Hp E. unfold rounded. rewrite (Qlog2_comp p q Hp E).
  rewrite (round_even_comp (p / pow2 (Qlog2 q - 52)) (q / pow2 (Qlog2 q - 52))).
  - reflexivity.
  - rewrite E. reflexivity.
Qed.

Lemma rounded_mono (p q : Q) : 0 < p -> p <= q -> rounded p <= rounded q.
Proof.
  intros Hp Hpq. assert (Hq : 0 < q) by lra.
  pose proof (Qlog2_mono p q Hp Hpq) as Hl.
  destruct (Z.eq_dec (Qlog2 p) (Qlog2 q)) as [E | N].
  - unfold rounded. rewrite E.
    set (e := (Qlog2 q - 52)%Z). pose proof (pow2_pos e) as He.
    assert (T : p / pow2 e <= q / pow2 e).
    { apply Qle_shift_div_l; [exact He |].
      assert (X : p / pow2 e * pow2 e == p) by (field; lra). lra. }
    apply round_even_mono in T. rewrite Zle_Qle in T.
    set (a := inject_Z (round_even (p / pow2 e))) in *.
    set (b := inject_Z (round_even (q / pow2 e))) in *.
    set (x := pow2 e) in *. nra.
  - destruct (rounded_binade p Hp) as [_ B1].
    destruct (rounded_binade q Hq) as [B2 _].
    assert (P : pow2 (Qlog2 p + 1) <= pow2 (Qlog2 q)) by (apply pow2_le; lia).
    lra.
Qed.



(** The rounded division and subtraction agree with those of [SpecFloat] on
    every pair of samples, for the quotient, for the quotient by it and for
    the difference. *)
Lemma div_agrees_with_SpecFloat :
  forallb (fun a => forallb (agree_on a) samples) samples = true.
Proof. vm_compute. reflexivity. Qed.

(** * The fitting calculator in binary64 *)

Lemma rounded_one : rounded 1 == 1.
Proof. vm_compute. reflexivity. Qed.

Lemma rounded_ge_1 (q : Q) : 1 <= q -> 1 <= rounded q.
Proof.
  intros H. rewrite <- rounded_one at 1. apply rounded_mono; lra.
Qed.

Lemma u64_bounds : 0 < u64 /\ u64 <= 1 # 8 /\ pow2 (-51) == 4 * u64
                   /\ pow2 (-50) == 8 * u64.
Proof. repeat split; vm_compute; try reflexivity; discriminate. Qed.

Lemma div64_Fin (a b : Q) :
  ~ b == 0 -> normal (a / b) ->
  Binary64.div (Fin a) (Fin b) = Fin (rounded (a / b)).
Proof.
  intros Hb Hn. unfold Binary64.div. rewrite div_Fin by exact Hb.
  cbn [round]. apply round64_normal. exact Hn.
Qed.

Lemma normal_pos (q : Q) : normal q -> 0 < q.
Proof. intros [H _]. pose proof (pow2_pos (-1022)). lra. Qed.

Lemma moderate_pos (q : Q) : moderate q -> 0 < q.
Proof. intros [H _]. pose proof (pow2_pos (-250)). lra. Qed.

(** The quotient of two moderate sizes is in the normal range. *)
Lemma moderate_div (a b : Q) :
  moderate a -> moderate b ->
  pow2 (-500) <= a / b /\ a / b <= pow2 500 /\ normal (a / b).
Proof.
  intros [A1 A2] [B1 B2].
  pose proof (pow2_pos (-250)) as Hp. pose proof (pow2_pos 250) as HP.
  assert (E : pow2 (-250) * pow2 250 == 1) by (rewrite <- pow2_plus; reflexivity).
  assert (E1 : pow2 (-500) == pow2 (-250) * pow2 (-250))
    by (rewrite <- pow2_plus; reflexivity).
  assert (E2 : pow2 500 == pow2 250 * pow2 250)
    by (rewrite <- pow2_plus; reflexivity).
  assert (N1 : pow2 (-1022) <= pow2 (-500)) by (apply pow2_le; lia).
  assert (N2 : pow2 500 <= pow2 1022) by (apply pow2_le; lia).
  assert (Et : a / b * b == a) by (field; lra).
  assert (L : pow2 (-500) <= a / b).
  { apply Qle_shift_div_l; [lra |]. rewrite E1.
    set (p := pow2 (-250)) in *. set (P := pow2 250) in *. nra. }
  assert (U : a / b <= pow2 500).
  { apply Qle_shift_div_r; [lra |]. rewrite E2.
    set (p := pow2 (-250)) in *. set (P := pow2 250) in *. nra. }
  split; [exact L |]. split; [exact U |]. split; lra.
Qed.

(** A moderate size over a ratio between 1 and [2^501] is in the normal
    range. *)
Lemma moderate_over_ratio (w r : Q) :
  moderate w -> 1 <= r -> r <= pow2 501 -> normal (w / r).
Proof.
  intros [W1 W2] R1 R2.
  pose proof (pow2_pos (-250)) as Hp. pose proof (pow2_pos (-751)) as Hq.
  assert (E : pow2 (-250) == pow2 (-751) * pow2 501)
    by (rewrite <- pow2_plus; reflexivity).
  assert (N1 : pow2 (-1022) <= pow2 (-751)) by (apply pow2_le; lia).
  assert (N2 : pow2 250 <= pow2 1022) by (apply pow2_le; lia).
  split.
  - apply Qle_shift_div_l; [lra |].
    set (a := pow2 (-751)) in *. set (b := pow2 501) in *.
    set (c := pow2 (-1022)) in *. nra.
  - apply Qle_shift_div_r; [lra |].
    set (c := pow2 1022) in *. nra.
Qed.

(** One axis ratio of the binary64 code, on positive sizes. *)
Lemma axis64 (u x : Q) :
  0 < u -> 0 < x -> (u < x -> normal (x / u)) ->
  exists q : Q,
    (if ltb (Fin u) (Fin x) then Binary64.div (Fin x) (Fin u) else one) = Fin q
    /\ 1 <= q
    /\ (x <= u -> q == 1)
    /\ (u < x -> q == rounded (x / u)).
Proof.
  intros Hu Hx Hn. rewrite ltb_Fin.
  destruct (Qltb_spec u x) as [Hlt | Hge].
  - rewrite div64_Fin by (try apply Hn; lra).
    exists (rounded (x / u)). split; [reflexivity |].
    split; [| split; [intros; lra | reflexivity]].
    apply rounded_ge_1. apply Qle_shift_div_l; lra.
  - exists 1. split; [reflexivity |].
    split; [lra | split; [reflexivity | intros; lra]].
Qed.

(** The binary64 fit of a positive image into a positive usable area. *)
Lemma fit64 (w h uw uh : Q) (containerSize : IImageSize) :
  Rounded.containerWidth containerSize = Fin uw ->
  Rounded.containerHeight containerSize = Fin uh ->
  0 < uw -> 0 < uh -> 0 < w -> 0 < h ->
  (uw < w -> normal (w / uw)) ->
  (uh < h -> normal (h / uh)) ->
  exists r : Q,
    Rounded.ratio (fin_size w h) containerSize = Fin r
    /\ 1 <= r
    /\ (uw < w -> rounded (w / uw) <= r)
    /\ (uh < h -> rounded (h / uh) <= r)
    /\ (r == 1
        \/ (uw < w /\ r == rounded (w / uw))
        \/ (uh < h /\ r == rounded (h / uh)))
    /\ (normal (w / r) -> normal (h / r) ->
        Rounded.getFittingSize (fin_size w h) containerSize
        = fin_size (rounded (w / r)) (rounded (h / r))).
Proof.
  intros Cw Ch Huw Huh Hw Hh Nw Nh.
  destruct (axis64 uw w Huw Hw Nw) as (qw & Ew & Lw & Fw & Ow).
  destruct (axis64 uh h Huh Hh Nh) as (qh & Eh & Lh & Fh & Oh).
  assert (R : exists r : Q,
             Rounded.ratio (fin_size w h) containerSize = Fin r
             /\ 1 <= r /\ qw <= r /\ qh <= r
             /\ (r == 1 \/ r == qw \/ r == qh)).
  { unfold Rounded.ratio, Rounded.widthRatio, Rounded.heightRatio.
    rewrite Cw, Ch. cbn [width height fin_size].
    rewrite Ew, Eh. cbn [ltb max one]. case_Qltb;
      eexists; (split; [reflexivity |]); repeat split; try lra;
      first [left; lra | right; left; lra | right; right; lra]. }
  destruct R as (r & R & L1 & Lqw & Lqh & Cases).
  exists r. split; [exact R |]. split; [exact L1 |].
  split; [intros H; rewrite <- (Ow H); exact Lqw |].
  split; [intros H; rewrite <- (Oh H); exact Lqh |].
  split.
  - destruct Cases as [C | [C | C]].
    + left. exact C.
    + destruct (Qlt_le_dec uw w) as [H | H].
      * right. left. split; [exact H |]. rewrite C. apply Ow. exact H.
      * left. rewrite C. apply Fw. exact H.
    + destruct (Qlt_le_dec uh h) as [H | H].
      * right. right. split; [exact H |]. rewrite C. apply Oh. exact H.
      * left. rewrite C. apply Fh. exact H.
  - intros N1 N2. unfold Rounded.getFittingSize. rewrite R.
    cbn [width height fin_size].
    rewrite !div64_Fin by (try assumption; lra). reflexivity.
Qed.

(** ** Rounding errors of a fit *)

(** The fitted dimension exceeds the usable extent by a relative [2^-51] at
    most. *)
Lemma fit_upper (w uw r : Q) :
  0 < w -> 0 < uw -> 1 <= r ->
  (uw < w -> rounded (w / uw) <= r) ->
  rounded (w / r) <= uw * (1 + pow2 (-51)).
Proof.
  intros Hw Huw Hr Hover.
  destruct u64_bounds as (U0 & U1 & U51 & _). rewrite U51.
  assert (Et : w / r * r == w) by (field; lra).
  assert (Ht : 0 < w / r) by (apply Qlt_shift_div_l; lra).
  destruct (rounded_error (w / r) Ht) as [_ E2].
  assert (Ea : w / uw * uw == w) by (field; lra).
  assert (Ha : 0 < w / uw) by (apply Qlt_shift_div_l; lra).
  destruct (rounded_error (w / uw) Ha) as [E1 _].
  set (t := w / r) in *. set (rt := rounded t) in *. set (u := u64) in *.
  set (a := w / uw) in *. set (ra := rounded a) in *.
  clearbody rt t u ra a.
  destruct (Qlt_le_dec uw w) as [Hlt | Hle].
  - specialize (Hover Hlt).
    assert (K1 : a * (1 - u) <= r) by lra.
    assert (K2 : t * (1 - u) <= uw).
    { assert (X : t * (a * (1 - u)) <= t * r) by nra.
      assert (Y : t * (a * (1 - u)) == a * (t * (1 - u))) by ring.
      assert (Z : t * r == a * uw) by (rewrite Et, Ea; reflexivity).
      nra. }
    assert (X1 : 0 <= u * (1 - 2 * u)) by nra.
    assert (X2 : 0 <= t * (u * (1 - 2 * u))) by (apply Qmult_le_0_compat; lra).
    assert (K3 : t * (1 + u) <= t * (1 - u) * (1 + 4 * u)) by nra.
    nra.
  - assert (K : t <= w) by nra.
    nra.
Qed.

(** When the width ratio binds, the fitted width is below the usable width
    by a relative [2^-51] at most. *)
Lemma fit_lower (w uw r : Q) :
  0 < uw -> uw < w -> r == rounded (w / uw) ->
  uw * (1 - pow2 (-51)) <= rounded (w / r).
Proof.
  intros Huw Hlt Er.
  destruct u64_bounds as (U0 & U1 & U51 & _). rewrite U51.
  assert (Ea : w / uw * uw == w) by (field; lra).
  assert (Ha : 1 <= w / uw) by (apply Qle_shift_div_l; lra).
  destruct (rounded_error (w / uw)) as [E1 E2]; [lra |].
  pose proof (rounded_ge_1 _ Ha) as G.
  assert (Hr : 1 <= r) by lra.
  assert (Et : w / r * r == w) by (field; lra).
  assert (Ht : 0 < w / r) by (apply Qlt_shift_div_l; lra).
  destruct (rounded_error (w / r) Ht) as [F1 _].
  set (a := w / uw) in *. set (ra := rounded a) in *.
  set (t := w / r) in *. set (rt := rounded t) in *. set (u := u64) in *.
  clearbody ra a rt t u.
  assert (K1 : r <= a * (1 + u)) by lra.
  assert (K2 : uw <= t * (1 + u)).
  { assert (X : t * r <= t * (a * (1 + u))) by nra.
    assert (Z : t * r == a * uw) by (rewrite Et, Ea; reflexivity).
    assert (Y : t * (a * (1 + u)) == a * (t * (1 + u))) by ring.
    nra. }
  assert (X1 : 0 <= u * (2 + 4 * u)) by nra.
  assert (X2 : 0 <= t * (u * (2 + 4 * u))) by (apply Qmult_le_0_compat; lra).
  assert (K3 : t * (1 + u) * (1 - 4 * u) <= t * (1 - u)) by nra.
  nra.
Qed.

(** The two dimensions are rounded apart by a relative [2^-51] at most. *)
Lemma fit_aspect (w h r : Q) :
  0 < w -> 0 < h -> 1 <= r ->
  Qabs (rounded (w / r) * h - rounded (h / r) * w)
  <= pow2 (-51) * (rounded (w / r) * h).
Proof.
  intros Hw Hh Hr.
  destruct u64_bounds as (U0 & U1 & U51 & _). rewrite U51.
  assert (Etw : w / r * r == w) by (field; lra).
  assert (Eth : h / r * r == h) by (field; lra).
  assert (Htw : 0 < w / r) by (apply Qlt_shift_div_l; lra).
  assert (Hth : 0 < h / r) by (apply Qlt_shift_div_l; lra).
  destruct (rounded_error (w / r) Htw) as [W1 W2].
  destruct (rounded_error (h / r) Hth) as [H1 H2].
  assert (M : w / r * h == h / r * w) by (field; lra).
  set (tw := w / r) in *. set (th := h / r) in *.
  set (a := rounded tw) in *. set (b := rounded th) in *.
  set (u := u64) in *. clearbody a b tw th u.
  assert (Hm : 0 < tw * h) by nra.
  assert (A1 : tw * h * (1 - u) <= a * h) by nra.
  assert (A2 : a * h <= tw * h * (1 + u)) by nra.
  assert (B1 : tw * h * (1 - u) <= b * w).
  { rewrite M. nra. }
  assert (B2 : b * w <= tw * h * (1 + u)).
  { rewrite M. nra. }
  apply Qabs_Qle_condition. split; nra.
Qed.

(** ** The claims on the binary64 code *)

Lemma ratio_bound (x u r : Q) :
  moderate x -> moderate u -> r == rounded (x / u) -> r <= pow2 501.
Proof.
  intros Hx Hu E.
  destruct (moderate_div x u Hx Hu) as (L & U & N).
  destruct (rounded_error (x / u)) as [_ E2]; [apply normal_pos; exact N |].
  destruct u64_bounds as (U0 & U1 & _).
  assert (P : pow2 501 == 2 * pow2 500).
  { rewrite <- pow2_succ. reflexivity. }
  pose proof (pow2_pos 500) as P5.
  rewrite E, P.
  set (q := x / u) in *. set (rq := rounded q) in *. set (v := u64) in *.
  set (c := pow2 500) in *. clearbody rq q v c. nra.
Qed.

(** The binary64 fit of moderate sizes: the ratio, what it dominates, what
    it is, and the output. *)
Lemma fit64_moderate (w h uw uh : Q) (containerSize : IImageSize) :
  Rounded.containerWidth containerSize = Fin uw ->
  Rounded.containerHeight containerSize = Fin uh ->
  moderate w -> moderate h -> moderate uw -> moderate uh ->
  exists r : Q,
    Rounded.ratio (fin_size w h) containerSize = Fin r
    /\ 1 <= r /\ r <= pow2 501
    /\ (uw < w -> rounded (w / uw) <= r)
    /\ (uh < h -> rounded (h / uh) <= r)
    /\ (r == 1
        \/ (uw < w /\ r == rounded (w / uw))
        \/ (uh < h /\ r == rounded (h / uh)))
    /\ Rounded.getFittingSize (fin_size w h) containerSize
       = fin_size (rounded (w / r)) (rounded (h / r)).
Proof.
  intros Cw Ch Mw Mh Muw Muh.
  pose proof (moderate_pos _ Mw) as Hw. pose proof (moderate_pos _ Mh) as Hh.
  pose proof (moderate_pos _ Muw) as Huw.
  pose proof (moderate_pos _ Muh) as Huh.
  destruct (fit64 w h uw uh containerSize Cw Ch Huw Huh Hw Hh)
    as (r & R & L1 & Dw & Dh & Cases & Out).
  - intros _. apply (moderate_div w uw Mw Muw).
  - intros _. apply (moderate_div h uh Mh Muh).
  - assert (B : r <= pow2 501).
    { destruct Cases as [C | [[_ C] | [_ C]]].
      - rewrite C. apply (pow2_le 0 501). lia.
      - apply (ratio_bound w uw r Mw Muw C).
      - apply (ratio_bound h uh r Mh Muh C). }
    exists r. repeat (split; [assumption |]).
    apply Out; apply moderate_over_ratio; assumption.
Qed.

Ltac moderate_const :=
  split; apply Qle_bool_imp_le; vm_compute; reflexivity.

(** C2, on the code.  In exact rational arithmetic an image larger than the
    usable area in both dimensions, both usable dimensions positive, is
    divided by the larger of the two ratios, fits the usable area and keeps
    its aspect ratio exactly.  In binary64, for sizes between [2^-250] and
    [2^250] and the usable extents the code computes, the ratio is the
    larger of the two rounded quotients and each dimension is the rounded
    quotient by it; the output exceeds a usable extent by a relative
    [2^-51] at most, and its aspect ratio is off by a relative [2^-51] at
    most. *)
Theorem getFittingSize_both_over_rounded :
  (forall w h cw ch : Q,
     0 < cw - 20 -> 0 < ch - 20 - 60 -> cw - 20 < w -> ch - 20 - 60 < h ->
     exists r ow oh : Q,
       ratio (fin_size w h) (fin_size cw ch) = Fin r
       /\ r == Qmax (w / (cw - 20)) (h / (ch - 20 - 60))
       /\ getFittingSize (fin_size w h) (fin_size cw ch) = fin_size ow oh
       /\ ow == w / r /\ oh == h / r
       /\ ow <= cw - 20 /\ oh <= ch - 20 - 60
       /\ ow * h == oh * w)
  /\ (forall (w h uw uh : Q) (containerSize : IImageSize),
        Rounded.containerWidth containerSize = Fin uw ->
        Rounded.containerHeight containerSize = Fin uh ->
        moderate w -> moderate h -> moderate uw -> moderate uh ->
        uw < w -> uh < h ->
        exists r ow oh : Q,
          Rounded.ratio (fin_size w h) containerSize = Fin r
          /\ r == Qmax (rounded (w / uw)) (rounded (h / uh))
          /\ Rounded.getFittingSize (fin_size w h) containerSize
             = fin_size ow oh
          /\ ow == rounded (w / r) /\ oh == rounded (h / r)
          /\ ow <= uw * (1 + pow2 (-51))
          /\ oh <= uh * (1 + pow2 (-51))
          /\ Qabs (ow * h - oh * w) <= pow2 (-51) * (ow * h)).
Proof.
  split; [exact getFittingSize_both_over |].
  intros w h uw uh containerSize Cw Ch Mw Mh Muw Muh Ow Oh.
  destruct (fit64_moderate w h uw uh containerSize Cw Ch Mw Mh Muw Muh)
    as (r & R & L1 & _ & Dw & Dh & Cases & Out).
  pose proof (moderate_pos _ Mw) as Hw. pose proof (moderate_pos _ Mh) as Hh.
  pose proof (moderate_pos _ Muw) as Huw.
  pose proof (moderate_pos _ Muh) as Huh.
  exists r, (rounded (w / r)), (rounded (h / r)).
  split; [exact R |]. split.
  { specialize (Dw Ow). specialize (Dh Oh).
    assert (G : 1 <= rounded (w / uw)).
    { apply rounded_ge_1. apply Qle_shift_div_l; lra. }
    destruct (Q.max_spec (rounded (w / uw)) (rounded (h / uh)))
      as [[Hm Em] | [Hm Em]]; rewrite Em;
      destruct Cases as [C | [[_ C] | [_ C]]]; lra. }
  split; [exact Out |]. split; [reflexivity |]. split; [reflexivity |].
  split; [apply fit_upper; try assumption; intros; auto |].
  split; [apply fit_upper; try assumption; intros; auto |].
  apply fit_aspect; assumption.
Qed.

Lemma getFittingSize_both_over_rounded_witness :
  (exists r ow oh : Q,
     ratio (fin_size 1000 500) (fin_size 620 300) = Fin r
     /\ r == Qmax (1000 / (620 - 20)) (500 / (300 - 20 - 60))
     /\ getFittingSize (fin_size 1000 500) (fin_size 620 300) = fin_size ow oh
     /\ ow == 1000 / r /\ oh == 500 / r
     /\ ow <= 620 - 20 /\ oh <= 300 - 20 - 60
     /\ ow * 500 == oh * 1000)
  /\ (let containerSize := fin_size 620 300 in
      let uw := finite_part (Rounded.containerWidth containerSize) in
      let uh := finite_part (Rounded.containerHeight containerSize) in
      exists r ow oh : Q,
        Rounded.ratio (fin_size 603 221) containerSize = Fin r
        /\ r == Qmax (rounded (603 / uw)) (rounded (221 / uh))
        /\ Rounded.getFittingSize (fin_size 603 221) containerSize
           = fin_size ow oh
        /\ ow == rounded (603 / r) /\ oh == rounded (221 / r)
        /\ ow <= uw * (1 + pow2 (-51))
        /\ oh <= uh * (1 + pow2 (-51))
        /\ Qabs (ow * 221 - oh * 603) <= pow2 (-51) * (ow * 221)).
Proof.
  destruct getFittingSize_both_over_rounded as [Exact Code].
  split.
  - apply (Exact 1000 500 620 300); reflexivity.
  - cbv zeta.
    apply (Code 603 221
             (finite_part (Rounded.containerWidth (fin_size 620 300)))
             (finite_part (Rounded.containerHeight (fin_size 620 300)))
             (fin_size 620 300));
      try (vm_compute; reflexivity); moderate_const.
Defined.

(** C2, as stated, fails on the code: an image of 603 by 221 in a container
    of 620 by 300 (usable 600 by 220) comes out [600 + 2^-43] wide, wider
    than the usable width. *)
Lemma getFittingSize_both_over_exceeds :
  Rounded.containerWidth (fin_size 620 300) === Fin 600
  /\ Rounded.containerHeight (fin_size 620 300) === Fin 220
  /\ width (Rounded.getFittingSize (fin_size 603 221) (fin_size 620 300))
     === Fin (600 + (1 # 8796093022208))
  /\ ltb (Rounded.containerWidth (fin_size 620 300))
         (width (Rounded.getFittingSize (fin_size 603 221)
                                         (fin_size 620 300))) = true.
Proof.
  split; [vm_compute; reflexivity |].
  split; [vm_compute; reflexivity |].
  split; vm_compute; reflexivity.
Qed.

(** C3, on the code.  In exact rational arithmetic an image that exceeds a
    positive usable area in exactly one dimension comes out with that
    dimension equal to the usable extent and the other divided by the same
    ratio.  In binary64, for sizes between [2^-250] and [2^250] and the
    usable extents the code computes, the ratio is the rounded quotient of
    the exceeding dimension, both output dimensions are the rounded
    quotients by it, and the exceeding one is within a relative [2^-51] of
    the usable extent. *)
Theorem getFittingSize_one_over_rounded :
  (forall w h cw ch : Q,
     0 < cw - 20 -> 0 < ch - 20 - 60 ->
     (cw - 20 < w -> h <= ch - 20 - 60 ->
      ratio (fin_size w h) (fin_size cw ch) = Fin (w / (cw - 20))
      /\ size_eq (getFittingSize (fin_size w h) (fin_size cw ch))
                 (fin_size (cw - 20) (h / (w / (cw - 20)))))
     /\ (ch - 20 - 60 < h -> w <= cw - 20 ->
         ratio (fin_size w h) (fin_size cw ch) = Fin (h / (ch - 20 - 60))
         /\ size_eq (getFittingSize (fin_size w h) (fin_size cw ch))
                    (fin_size (w / (h / (ch - 20 - 60))) (ch - 20 - 60))))
  /\ (forall (w h uw uh : Q) (containerSize : IImageSize),
        Rounded.containerWidth containerSize = Fin uw ->
        Rounded.containerHeight containerSize = Fin uh ->
        moderate w -> moderate h -> moderate uw -> moderate uh ->
        (uw < w -> h <= uh ->
         exists r ow oh : Q,
           Rounded.ratio (fin_size w h) containerSize = Fin r
           /\ r == rounded (w / uw)
           /\ Rounded.getFittingSize (fin_size w h) containerSize
              = fin_size ow oh
           /\ ow == rounded (w / r) /\ oh == rounded (h / r)
           /\ uw * (1 - pow2 (-51)) <= ow /\ ow <= uw * (1 + pow2 (-51)))
        /\ (uh < h -> w <= uw ->
            exists r ow oh : Q,
              Rounded.ratio (fin_size w h) containerSize = Fin r
              /\ r == rounded (h / uh)
              /\ Rounded.getFittingSize (fin_size w h) containerSize
                 = fin_size ow oh
              /\ ow == rounded (w / r) /\ oh == rounded (h / r)
              /\ uh * (1 - pow2 (-51)) <= oh
              /\ oh <= uh * (1 + pow2 (-51)))).
Proof.
  split; [exact getFittingSize_one_over |].
  intros w h uw uh containerSize Cw Ch Mw Mh Muw Muh.
  destruct (fit64_moderate w h uw uh containerSize Cw Ch Mw Mh Muw Muh)
    as (r & R & L1 & _ & Dw & Dh & Cases & Out).
  pose proof (moderate_pos _ Mw) as Hw. pose proof (moderate_pos _ Mh) as Hh.
  pose proof (moderate_pos _ Muw) as Huw.
  pose proof (moderate_pos _ Muh) as Huh.
  split.
  - intros Ow Fh.
    assert (E : r == rounded (w / uw)).
    { specialize (Dw Ow).
      assert (G : 1 <= rounded (w / uw)).
      { apply rounded_ge_1. apply Qle_shift_div_l; lra. }
      destruct Cases as [C | [[_ C] | [C _]]]; lra. }
    exists r, (rounded (w / r)), (rounded (h / r)).
    split; [exact R |]. split; [exact E |]. split; [exact Out |].
    split; [reflexivity |]. split; [reflexivity |].
    split; [apply fit_lower; assumption |].
    apply fit_upper; assumption.
  - intros Oh Fw.
    assert (E : r == rounded (h / uh)).
    { specialize (Dh Oh).
      assert (G : 1 <= rounded (h / uh)).
      { apply rounded_ge_1. apply Qle_shift_div_l; lra. }
      destruct Cases as [C | [[C _] | [_ C]]]; lra. }
    exists r, (rounded (w / r)), (rounded (h / r)).
    split; [exact R |]. split; [exact E |]. split; [exact Out |].
    split; [reflexivity |]. split; [reflexivity |].
    split; [apply fit_lower; assumption |].
    apply fit_upper; assumption.
Qed.

Lemma getFittingSize_one_over_rounded_witness :
  size_eq (getFittingSize (fin_size 1200 100) (fin_size 620 300))
          (fin_size (620 - 20) (100 / (1200 / (620 - 20))))
  /\ (let containerSize := fin_size 620 300 in
      let uw := finite_part (Rounded.containerWidth containerSize) in
      exists r ow oh : Q,
        Rounded.ratio (fin_size 603 201) containerSize = Fin r
        /\ r == rounded (603 / uw)
        /\ Rounded.getFittingSize (fin_size 603 201) containerSize
           = fin_size ow oh
        /\ ow == rounded (603 / r) /\ oh == rounded (201 / r)
        /\ uw * (1 - pow2 (-51)) <= ow /\ ow <= uw * (1 + pow2 (-51))).
Proof.
  destruct getFittingSize_one_over_rounded as [Exact Code].
  split.
  - apply (Exact 1200 100 620 300); reflexivity || discriminate.
  - cbv zeta.
    apply (Code 603 201
             (finite_part (Rounded.containerWidth (fin_size 620 300)))
             (finite_part (Rounded.containerHeight (fin_size 620 300)))
             (fin_size 620 300));
      try (vm_compute; reflexivity); try moderate_const;
      vm_compute; discriminate.
Defined.

(** C3, as stated, fails on the code: in a container of 620 by 300 (usable
    600 by 220) an image of 603 by 201 comes out [600 + 2^-43] wide and an
    image of 100 by 224 comes out [220 + 2^-45] high, not exactly the usable
    extent. *)
Lemma getFittingSize_one_over_inexact :
  width (Rounded.getFittingSize (fin_size 603 201) (fin_size 620 300))
  === Fin (600 + (1 # 8796093022208))
  /\ height (Rounded.getFittingSize (fin_size 100 224) (fin_size 620 300))
     === Fin (220 + (1 # 35184372088832))
  /\ ~ width (Rounded.getFittingSize (fin_size 603 201) (fin_size 620 300))
       === Rounded.containerWidth (fin_size 620 300).
Proof.
  split; [vm_compute; reflexivity |].
  split; [vm_compute; reflexivity |].
  vm_compute. discriminate.
Qed.









(** ** Further bounds on the code *)

(** X2. On the code, for sizes between [2^-250] and [2^250] and the usable
    extents the code computes: the output exceeds neither usable extent by
    more than a relative [2^-51], whether the image is scaled or not. *)
Theorem getFittingSize_within_usable_rounded
  (w h uw uh : Q) (containerSize : IImageSize) :
  Rounded.containerWidth containerSize = Fin uw ->
  Rounded.containerHeight containerSize = Fin uh ->
  moderate w -> moderate h -> moderate uw -> moderate uh ->
  exists ow oh : Q,
    Rounded.getFittingSize (fin_size w h) containerSize = fin_size ow oh
    /\ ow <= uw * (1 + pow2 (-51))
    /\ oh <= uh * (1 + pow2 (-51)).
Proof.
  intros Cw Ch Mw Mh Muw Muh.
  destruct (fit64_moderate w h uw uh containerSize Cw Ch Mw Mh Muw Muh)
    as (r & R & L1 & _ & Dw & Dh & _ & Out).
  exists (rounded (w / r)), (rounded (h / r)).
  split; [exact Out |].
  split; apply fit_upper; try assumption; apply moderate_pos; assumption.
Qed.

Lemma getFittingSize_within_usable_rounded_witness :
  let containerSize := fin_size 620 300 in
  let uw := finite_part (Rounded.containerWidth containerSize) in
  let uh := finite_part (Rounded.containerHeight containerSize) in
  exists ow oh : Q,
    Rounded.getFittingSize (fin_size 603 201) containerSize = fin_size ow oh
    /\ ow <= uw * (1 + pow2 (-51))
    /\ oh <= uh * (1 + pow2 (-51)).
Proof.
  cbv zeta.
  apply (getFittingSize_within_usable_rounded 603 201
           (finite_part (Rounded.containerWidth (fin_size 620 300)))
           (finite_part (Rounded.containerHeight (fin_size 620 300)))
           (fin_size 620 300));
    try (vm_compute; reflexivity); moderate_const.
Defined.

(** X3. On the code, for sizes between [2^-250] and [2^250] and the usable
    extents the code computes: the aspect ratio is kept up to rounding,
    output width times input height and output height times input width
    differing by a relative [2^-51] at most. *)
Theorem getFittingSize_aspect_ratio_rounded
  (w h uw uh : Q) (containerSize : IImageSize) :
  Rounded.containerWidth containerSize = Fin uw ->
  Rounded.containerHeight containerSize = Fin uh ->
  moderate w -> moderate h -> moderate uw -> moderate uh ->
  exists ow oh : Q,
    Rounded.getFittingSize (fin_size w h) containerSize = fin_size ow oh
    /\ Qabs (ow * h - oh * w) <= pow2 (-51) * (ow * h).
Proof.
  intros Cw Ch Mw Mh Muw Muh.
  destruct (fit64_moderate w h uw uh containerSize Cw Ch Mw Mh Muw Muh)
    as (r & R & L1 & _ & _ & _ & _ & Out).
  exists (rounded (w / r)), (rounded (h / r)).
  split; [exact Out |].
  apply fit_aspect; try assumption; apply moderate_pos; assumption.
Qed.

Lemma getFittingSize_aspect_ratio_rounded_witness :
  exists ow oh : Q,
    Rounded.getFittingSize (fin_size 603 201) (fin_size 620 300)
    = fin_size ow oh
    /\ Qabs (ow * 201 - oh * 603) <= pow2 (-51) * (ow * 201).
Proof.
  apply (getFittingSize_aspect_ratio_rounded 603 201
           (finite_part (Rounded.containerWidth (fin_size 620 300)))
           (finite_part (Rounded.containerHeight (fin_size 620 300)))
           (fin_size 620 300));
    try (vm_compute; reflexivity); moderate_const.
Defined.

(** X4. On the code, for sizes between [2^-250] and [2^250] and the usable
    extents the code computes: the fit is tight up to rounding.  An image
    that exceeds the usable area in some dimension comes out with its width
    within a relative [2^-51] of the usable width, or its height within a
    relative [2^-51] of the usable height. *)
Theorem getFittingSize_tight_rounded
  (w h uw uh : Q) (containerSize : IImageSize) :
  Rounded.containerWidth containerSize = Fin uw ->
  Rounded.containerHeight containerSize = Fin uh ->
  moderate w -> moderate h -> moderate uw -> moderate uh ->
  uw < w \/ uh < h ->
  exists ow oh : Q,
    Rounded.getFittingSize (fin_size w h) containerSize = fin_size ow oh
    /\ ((uw * (1 - pow2 (-51)) <= ow /\ ow <= uw * (1 + pow2 (-51)))
        \/ (uh * (1 - pow2 (-51)) <= oh /\ oh <= uh * (1 + pow2 (-51)))).
Proof.
  intros Cw Ch Mw Mh Muw Muh Hover.
  destruct (fit64_moderate w h uw uh containerSize Cw Ch Mw Mh Muw Muh)
    as (r & R & L1 & _ & Dw & Dh & Cases & Out).
  pose proof (moderate_pos _ Mw) as Hw. pose proof (moderate_pos _ Mh) as Hh.
  pose proof (moderate_pos _ Muw) as Huw.
  pose proof (moderate_pos _ Muh) as Huh.
  exists (rounded (w / r)), (rounded (h / r)).
  split; [exact Out |].
  assert (Bind : (uw < w /\ r == rounded (w / uw))
                 \/ (uh < h /\ r == rounded (h / uh))).
  { destruct Cases as [C | [C | C]]; [| left; exact C | right; exact C].
    destruct Hover as [H | H].
    - left. split; [exact H |]. specialize (Dw H).
      assert (G : 1 <= rounded (w / uw)).
      { apply rounded_ge_1. apply Qle_shift_div_l; lra. }
      lra.
    - right. split; [exact H |]. specialize (Dh H).
      assert (G : 1 <= rounded (h / uh)).
      { apply rounded_ge_1. apply Qle_shift_div_l; lra. }
      lra. }
  destruct Bind as [[H E] | [H E]]; [left | right].
  - split; [apply fit_lower; assumption | apply fit_upper; assumption].
  - split; [apply fit_lower; assumption | apply fit_upper; assumption].
Qed.

Lemma getFittingSize_tight_rounded_witness :
  let containerSize := fin_size 620 300 in
  let uw := finite_part (Rounded.containerWidth containerSize) in
  let uh := finite_part (Rounded.containerHeight containerSize) in
  exists ow oh : Q,
    Rounded.getFittingSize (fin_size 603 201) containerSize = fin_size ow oh
    /\ ((uw * (1 - pow2 (-51)) <= ow /\ ow <= uw * (1 + pow2 (-51)))
        \/ (uh * (1 - pow2 (-51)) <= oh /\ oh <= uh * (1 + pow2 (-51)))).
Proof.
  cbv zeta.
  apply (getFittingSize_tight_rounded 603 201
           (finite_part (Rounded.containerWidth (fin_size 620 300)))
           (finite_part (Rounded.containerHeight (fin_size 620 300)))
           (fin_size 620 300));
    try (vm_compute; reflexivity); try moderate_const.
  left. vm_compute. reflexivity.
Defined.

(** * The interaction value in the reachable states *)



